(** * Instrumentation-set analysis of [distance/path_constrain.py]

    A shallow embedding of the call-graph analysis and the properties its
    specification states about it.

    Modelling conventions.
    - A Python [dict] keyed by function names is a [gmap string _]; a Python
      [set] of function names is a [gset string]; Python lists are lists;
      call-site line numbers (unbounded Python ints) are [Z].
    - [d.get(k, [])] is [default [] (d !! k)].
    - The recursive search and the two work-list loops take a [fuel]
      argument and return [None] when it runs out; for each of them a bound
      is proved above which the result is [Some] and no longer depends on
      the fuel.  The total functions carrying the source's names run with
      that bound.
    - The recursion limit of the interpreter.  [dfs] is a recursive Python
      function: every nested call takes one interpreter frame, and when no
      frame is left the interpreter raises [RecursionError], which nothing
      in the program catches.  The fuel of [dfs] counts exactly these
      frames, so [get_call_path_fuel frames] is the call of [get_call_path]
      with [frames] frames left for [dfs], [None] being the exception.
      [get_call_path] is the answer of every call that returns
      ([get_call_path_fuel_Some]).  The work-list loops do not recurse. *)

From Stdlib Require Import ZArith Ascii String.
From stdpp Require Import gmap strings list fin_maps sorting.

#[local] Set Warnings "-clear-no-such-hyp".


(** ** Data model *)

(** caller -> callees, in file order, duplicates kept *)
Abbreviation call_graph_t := (gmap string (list string)).
(** caller -> (callee, line) records, same order *)
Abbreviation call_sites_t := (gmap string (list (string * Z))).
(** function -> basic blocks, each a list of callees *)
Abbreviation bb_calls_t := (gmap string (list (list string))).

(** [call_graph.get(node, [])] *)
Definition callees (call_graph : call_graph_t) (node : string) : list string :=
  default [] (call_graph !! node).

(** A call edge of the graph: [v] occurs in the callee list recorded for [u]. *)
Definition edge (call_graph : call_graph_t) (u v : string) : Prop :=
  v ∈ callees call_graph u.

(** ** Path finder: [get_call_path] *)

(** The three mutable objects the nested [dfs] closes over or is handed. *)
Record dfs_state := DfsState {
  visited : gset string;
  current_path : list string;
  path : list string
}.

(** The [for callee in ...: if dfs(callee, current_path): return True] loop,
    over the recursive call [rec]. *)
Fixpoint dfs_for {S : Type} (rec : string → S → option (bool * S))
    (cs : list string) (st : S) : option (bool * S) :=
  match cs with
  | [] => Some (false, st)
  | callee :: cs' =>
      match rec callee st with
      | None => None
      | Some (true, st') => Some (true, st')
      | Some (false, st') => dfs_for rec cs' st'
      end
  end.

(** The nested function [dfs].  [fuel] is the number of interpreter frames
    left for it and its nested calls.  [None] is an exception that leaves
    the function: [RecursionError] when no frame is left, or [IndexError]
    if [current_path.pop()] met an empty list (which never happens, see
    [dfs_for_false]). *)
Fixpoint dfs (fuel : nat) (call_graph : call_graph_t) (target : string)
    (node : string) (st : dfs_state) : option (bool * dfs_state) :=
  match fuel with
  | O => None
  | S fuel' =>
      if decide (node ∈ visited st) then Some (false, st)
      else
        let st1 := DfsState ({[node]} ∪ visited st)
                            (current_path st ++ [node]) (path st) in
        if decide (node = target) then
          Some (true, DfsState (visited st1) (current_path st1)
                               (path st1 ++ current_path st1))
        else
          match dfs_for (dfs fuel' call_graph target)
                        (callees call_graph node) st1 with
          | None => None
          | Some (true, st2) => Some (true, st2)
          | Some (false, st2) =>
              match current_path st2 with
              | [] => None
              | _ :: _ =>
                  Some (false, DfsState (visited st2)
                                        (removelast (current_path st2))
                                        (path st2))
              end
          end
  end.

Definition dfs_init : dfs_state := DfsState ∅ [] [].

(** [get_call_path] called with [fuel] frames left for [dfs]; [None] when
    the search raises. *)
Definition get_call_path_fuel (fuel : nat) (call_graph : call_graph_t)
    (start target : string) : option (list string) :=
  match dfs fuel call_graph target start dfs_init with
  | None => None
  | Some (_, st) => Some (path st)
  end.

(** Enough frames for any search: one per caller of the graph, plus one. *)
Definition dfs_bound (call_graph : call_graph_t) : nat := S (size call_graph).

(** The answer of [get_call_path] when the search returns. *)
Definition get_call_path (call_graph : call_graph_t) (start target : string)
    : list string :=
  default [] (get_call_path_fuel (dfs_bound call_graph) call_graph start target).

(** [chain cg u q]: [u :: q] follows call edges step by step. *)
Fixpoint chain (call_graph : call_graph_t) (u : string) (q : list string)
    : Prop :=
  match q with
  | [] => True
  | v :: q' => edge call_graph u v ∧ chain call_graph v q'
  end.

(** What a call of [dfs] does to [current_path] and [path]: on [False] both
    are as before; on [True] the stack at the call, the node and a chain
    from it to the target have been appended to [path]. *)
Definition dfs_post (call_graph : call_graph_t) (target node : string)
    (st : dfs_state) (b : bool) (st' : dfs_state) : Prop :=
  if b then
    ∃ q, path st' = path st ++ current_path st ++ node :: q
         ∧ last (node :: q) = Some target ∧ chain call_graph node q
  else current_path st' = current_path st ∧ path st' = path st.



(** The same search, additionally recording in [log] every node for which
    the body runs past the [if node in visited] guard (one entry per
    [visited.add(node)]).  Used only to count visits. *)
Fixpoint dfs_traced (fuel : nat) (call_graph : call_graph_t) (target : string)
    (node : string) (sl : dfs_state * list string)
    : option (bool * (dfs_state * list string)) :=
  match fuel with
  | O => None
  | S fuel' =>
      if decide (node ∈ visited sl.1) then Some (false, sl)
      else
        let st1 := DfsState ({[node]} ∪ visited sl.1)
                            (current_path sl.1 ++ [node]) (path sl.1) in
        let log1 := sl.2 ++ [node] in
        if decide (node = target) then
          Some (true, (DfsState (visited st1) (current_path st1)
                                (path st1 ++ current_path st1), log1))
        else
          match dfs_for (dfs_traced fuel' call_graph target)
                        (callees call_graph node) (st1, log1) with
          | None => None
          | Some (true, sl2) => Some (true, sl2)
          | Some (false, sl2) =>
              match current_path sl2.1 with
              | [] => None
              | _ :: _ =>
                  Some (false, (DfsState (visited sl2.1)
                                         (removelast (current_path sl2.1))
                                         (path sl2.1), sl2.2))
              end
          end
  end.

(** ** Preceding-dependency extractor: [get_preceding_dependent_funcs] *)

(** [[line for callee, line in callee_infos if callee == target_func]] *)
Definition target_lines (callee_infos : list (string * Z)) (target_func : string)
    : list Z :=
  (filter (λ ci, ci.1 = target_func) callee_infos).*2.

(** [any(line < tgt_line for tgt_line in target_lines) and callee != target_func] *)
Definition precedes_target (tgt_lines : list Z) (target_func : string)
    (ci : string * Z) : Prop :=
  Exists (λ tgt_line, (ci.2 < tgt_line)%Z) tgt_lines ∧ ci.1 ≠ target_func.

#[global] Instance precedes_target_dec tl t ci : Decision (precedes_target tl t ci).
Proof. unfold precedes_target. apply _. Defined.

(** The body of the loop over [call_sites.items()], for one caller. *)
Definition scan_caller (target_func : string) (callee_infos : list (string * Z))
    (dependent_funcs : gset string) : gset string :=
  match target_lines callee_infos target_func with
  | [] => dependent_funcs
  | tgt_lines =>
      foldl (λ acc ci,
               if decide (precedes_target tgt_lines target_func ci)
               then {[ci.1]} ∪ acc else acc)
            dependent_funcs callee_infos
  end.

Definition get_preceding_dependent_funcs (call_sites : call_sites_t)
    (target_func : string) : gset string :=
  foldl (λ acc item, scan_caller target_func item.2 acc) ∅
        (map_to_list call_sites).

(** Among the call sites [infos] of one caller, a site of [f], other than
    [t], lies on a line strictly below a line that calls [t]. *)
Definition site_precedes (infos : list (string * Z)) (t f : string) : Prop :=
  ∃ line tgt_line : Z,
    (f, line) ∈ infos ∧ f ≠ t ∧ (t, tgt_line) ∈ infos ∧ (line < tgt_line)%Z.

(** ** Transitive closure engine: [get_recursive_dependencies] *)

(** The inner [for callee in ...] loop: every callee not yet in [all_deps]
    is added to it and appended to the queue. *)
Fixpoint add_callees (cs : list string) (all_deps : gset string)
    (queue : list string) : gset string * list string :=
  match cs with
  | [] => (all_deps, queue)
  | callee :: cs' =>
      if decide (callee ∈ all_deps) then add_callees cs' all_deps queue
      else add_callees cs' ({[callee]} ∪ all_deps) (queue ++ [callee])
  end.

(** [while queue: func = queue.popleft(); ...] *)
Fixpoint bfs_loop (fuel : nat) (call_graph : call_graph_t)
    (all_deps : gset string) (queue : list string) : option (gset string) :=
  match queue with
  | [] => Some all_deps
  | func :: queue' =>
      match fuel with
      | O => None
      | S fuel' =>
          let '(all_deps', queue'') :=
            add_callees (callees call_graph func) all_deps queue' in
          bfs_loop fuel' call_graph all_deps' queue''
      end
  end.

(** [initial_funcs] is any iterable; it is traversed once for [set(...)] and
    once for [deque(...)]. *)
Definition get_recursive_dependencies_fuel (fuel : nat)
    (call_graph : call_graph_t) (initial_funcs : list string)
    : option (gset string) :=
  bfs_loop fuel call_graph (list_to_set initial_funcs) initial_funcs.

(** All functions that occur as a callee somewhere in the graph. *)
Definition callee_universe (call_graph : call_graph_t) : gset string :=
  ⋃ (list_to_set <$> (map_to_list call_graph).*2).

Definition bfs_bound (call_graph : call_graph_t) (initial_funcs : list string)
    : nat :=
  length initial_funcs + size (callee_universe call_graph).

Definition get_recursive_dependencies (call_graph : call_graph_t)
    (initial_funcs : list string) : gset string :=
  default ∅ (get_recursive_dependencies_fuel
               (bfs_bound call_graph initial_funcs) call_graph initial_funcs).

(** The closure loop, additionally recording every function put on the
    queue: the initial ones by [deque(initial_funcs)], the others by
    [queue.append(callee)]. *)
Fixpoint add_callees_traced (cs : list string) (all_deps : gset string)
    (queue log : list string) : gset string * list string * list string :=
  match cs with
  | [] => (all_deps, queue, log)
  | callee :: cs' =>
      if decide (callee ∈ all_deps) then add_callees_traced cs' all_deps queue log
      else add_callees_traced cs' ({[callee]} ∪ all_deps)
                              (queue ++ [callee]) (log ++ [callee])
  end.

Fixpoint bfs_loop_traced (fuel : nat) (call_graph : call_graph_t)
    (all_deps : gset string) (queue log : list string)
    : option (gset string * list string) :=
  match queue with
  | [] => Some (all_deps, log)
  | func :: queue' =>
      match fuel with
      | O => None
      | S fuel' =>
          let '(all_deps', queue'', log') :=
            add_callees_traced (callees call_graph func) all_deps queue' log in
          bfs_loop_traced fuel' call_graph all_deps' queue'' log'
      end
  end.

Definition get_recursive_dependencies_traced (fuel : nat)
    (call_graph : call_graph_t) (initial_funcs : list string)
    : option (gset string * list string) :=
  bfs_loop_traced fuel call_graph (list_to_set initial_funcs)
                  initial_funcs initial_funcs.

(** Reachability from a seed along call edges, the reference notion for the
    closure. *)
Inductive reachable_from (call_graph : call_graph_t) (seeds : list string)
    : string → Prop :=
  | reach_seed f : f ∈ seeds → reachable_from call_graph seeds f
  | reach_call f g :
      reachable_from call_graph seeds f → edge call_graph f g →
      reachable_from call_graph seeds g.

(** ** Intra-function expansion: [expand_by_internal_calls] *)

(** [for bb in bb_calls.get(func, []): for callee in bb: ...] *)
Fixpoint add_blocks (bbs : list (list string)) (expanded : gset string)
    (queue : list string) : gset string * list string :=
  match bbs with
  | [] => (expanded, queue)
  | bb :: bbs' =>
      let '(expanded', queue') := add_callees bb expanded queue in
      add_blocks bbs' expanded' queue'
  end.

Fixpoint expand_loop (fuel : nat) (bb_calls : bb_calls_t)
    (expanded : gset string) (queue : list string) : option (gset string) :=
  match queue with
  | [] => Some expanded
  | func :: queue' =>
      match fuel with
      | O => None
      | S fuel' =>
          let '(expanded', queue'') :=
            add_blocks (default [] (bb_calls !! func)) expanded queue' in
          expand_loop fuel' bb_calls expanded' queue''
      end
  end.

Definition expand_by_internal_calls_fuel (fuel : nat) (func_list : list string)
    (bb_calls : bb_calls_t) : option (gset string) :=
  expand_loop fuel bb_calls (list_to_set func_list) func_list.

(** The block structure forgotten: function -> all callees of its blocks. *)
Definition flat_calls (bb_calls : bb_calls_t) : call_graph_t :=
  (λ bbs : list (list string), concat bbs) <$> bb_calls.

Definition expand_by_internal_calls (func_list : list string)
    (bb_calls : bb_calls_t) : gset string :=
  default ∅ (expand_by_internal_calls_fuel
               (bfs_bound (flat_calls bb_calls) func_list) func_list bb_calls).

(** ** Orchestrator: [compute_instrumentation_set] *)

(** The body of the loop over [target_funcs]: the set [combined].  A Python
    set handed to a function that iterates it is passed as [elements]. *)
Definition combined (call_graph : call_graph_t) (call_sites : call_sites_t)
    (bb_calls : bb_calls_t) (entry_func target_func : string) : gset string :=
  let forward_path := get_call_path call_graph entry_func target_func in
  let direct_deps := get_preceding_dependent_funcs call_sites target_func in
  let recursive_deps :=
    get_recursive_dependencies call_graph (elements direct_deps) in
  let bb_expanded :=
    expand_by_internal_calls (elements recursive_deps) bb_calls in
  list_to_set forward_path ∪ recursive_deps ∪ bb_expanded.

Definition compute_instrumentation_set (call_graph : call_graph_t)
    (call_sites : call_sites_t) (bb_calls : bb_calls_t) (entry_func : string)
    (target_funcs : list string) : gset string :=
  foldl (λ instrumentation_funcs target_func,
           instrumentation_funcs
           ∪ combined call_graph call_sites bb_calls entry_func target_func)
        ∅ target_funcs.

(** The same loop with [frames] interpreter frames left for each path
    search: [None] when a search raises [RecursionError], which ends the
    loop and the function. *)
Definition combined_run (frames : nat) (call_graph : call_graph_t)
    (call_sites : call_sites_t) (bb_calls : bb_calls_t)
    (entry_func target_func : string) : option (gset string) :=
  forward_path ← get_call_path_fuel frames call_graph entry_func target_func;
  let direct_deps := get_preceding_dependent_funcs call_sites target_func in
  let recursive_deps :=
    get_recursive_dependencies call_graph (elements direct_deps) in
  let bb_expanded :=
    expand_by_internal_calls (elements recursive_deps) bb_calls in
  Some (list_to_set forward_path ∪ recursive_deps ∪ bb_expanded).

Definition compute_instrumentation_set_run (frames : nat)
    (call_graph : call_graph_t) (call_sites : call_sites_t)
    (bb_calls : bb_calls_t) (entry_func : string)
    (target_funcs : list string) : option (gset string) :=
  foldl (λ acc target_func,
           instrumentation_funcs ← acc;
           contribution ← combined_run frames call_graph call_sites bb_calls
                             entry_func target_func;
           Some (instrumentation_funcs ∪ contribution))
        (Some ∅) target_funcs.

(** ** Call graph model: [parse_call_graph_file] *)

(** The two string builtins the parser relies on.  [py_strip] is
    [str.strip()]; [py_int] is [int(...)] on a string, with [None] for
    [ValueError].  The development is generic in them. *)
Class PyBuiltins := {
  py_strip : string → string;
  py_int : string → option Z
}.

(** [c in s] for a one-character [c] *)
Fixpoint contains (c : ascii) (s : string) : bool :=
  match s with
  | EmptyString => false
  | String a s' => if decide (a = c) then true else contains c s'
  end.

(** [s.split(sep)] for a one-character separator: one more part than there
    are separators, empty parts kept. *)
Fixpoint split_on (sep : ascii) (s : string) : list string :=
  match s with
  | EmptyString => [EmptyString]
  | String a s' =>
      if decide (a = sep) then EmptyString :: split_on sep s'
      else match split_on sep s' with
           | [] => [String a EmptyString]
           | part :: parts => String a part :: parts
           end
  end.

(** What one iteration of the reading loop does with its line. *)
Inductive line_outcome :=
  | Ignored                                   (* first [continue]: nothing printed *)
  | Malformed (line : string)                 (* [except ValueError]: diagnostic, [continue] *)
  | Parsed (caller callee : string) (lineno : Z).

(** [a, b = parts]: unpacking anything but two parts raises [ValueError]. *)
Definition unpack2 (parts : list string) : option (string * string) :=
  match parts with
  | [a; b] => Some (a, b)
  | _ => None
  end.

(** The body of the [try]; [None] stands for a raised [ValueError]. *)
Definition try_parse `{!PyBuiltins} (line : string)
    : option (string * string * Z) :=
  '(caller, callee_part) ← unpack2 (split_on "," line);
  '(callee, lineno) ← unpack2 (split_on ":" callee_part);
  lineno ← py_int lineno;
  Some (caller, callee, lineno).

Definition parse_line `{!PyBuiltins} (raw : string) : line_outcome :=
  let line := py_strip raw in
  if decide (line = EmptyString) then Ignored
  else if negb (contains "," line) then Ignored
  else if negb (contains ":" line) then Ignored
  else
    match try_parse line with
    | Some (caller, callee, lineno) => Parsed caller callee lineno
    | None => Malformed line
    end.

(** After the specification's words, "lines of the form
    [caller,callee:line]": stripped, the line is [caller], a comma,
    [callee], a colon and a field that [int] reads as [n], with no further
    comma anywhere and no further colon after the comma. *)
Definition reads_as `{!PyBuiltins} (raw caller callee : string) (n : Z)
    : Prop :=
  ∃ field,
    py_strip raw
    = String.append caller
        (String "," (String.append callee (String ":" field)))
    ∧ contains "," caller = false
    ∧ contains "," callee = false ∧ contains ":" callee = false
    ∧ contains "," field = false ∧ contains ":" field = false
    ∧ py_int field = Some n.

Record parse_state := ParseState {
  st_call_graph : call_graph_t;
  st_call_sites : call_sites_t;
  st_printed : list string
}.

(** [d[caller].append(x)] on a [defaultdict(list)] *)
Definition dd_append {A} (d : gmap string (list A)) (caller : string) (x : A)
    : gmap string (list A) :=
  <[caller := default [] (d !! caller) ++ [x]]> d.

Definition parse_step `{!PyBuiltins} (st : parse_state) (raw : string)
    : parse_state :=
  match parse_line raw with
  | Ignored => st
  | Malformed line =>
      ParseState (st_call_graph st) (st_call_sites st)
                 (st_printed st ++ [String.append "Skipping malformed line: " line])
  | Parsed caller callee lineno =>
      ParseState (dd_append (st_call_graph st) caller callee)
                 (dd_append (st_call_sites st) caller (callee, lineno))
                 (st_printed st)
  end.

Definition parse_lines `{!PyBuiltins} (lines : list string) : parse_state :=
  foldl parse_step (ParseState ∅ ∅ []) lines.

(** The returned pair of dictionaries. *)
Definition parse_call_graph_file `{!PyBuiltins} (lines : list string)
    : call_graph_t * call_sites_t :=
  let st := parse_lines lines in (st_call_graph st, st_call_sites st).

(** A line is well formed when the loop reaches the two [append]s for it. *)
Definition well_formed `{!PyBuiltins} (raw : string) : bool :=
  match parse_line raw with Parsed _ _ _ => true | _ => false end.

(** The edge records of a file: its well-formed lines, parsed, in order. *)
Definition edge_records `{!PyBuiltins} (lines : list string)
    : list (string * string * Z) :=
  omap (λ raw, match parse_line raw with
               | Parsed caller callee lineno => Some (caller, callee, lineno)
               | _ => None
               end) lines.

(** The two dictionaries built from edge records alone. *)
Definition add_record (gs : call_graph_t * call_sites_t)
    (r : string * string * Z) : call_graph_t * call_sites_t :=
  (dd_append gs.1 r.1.1 r.1.2, dd_append gs.2 r.1.1 (r.1.2, r.2)).

Definition build_from_records (records : list (string * string * Z))
    : call_graph_t * call_sites_t :=
  foldl add_record (∅, ∅) records.

(** *** An ASCII instance of the builtins, to run the parser on examples *)

Definition is_space (c : ascii) : bool :=
  let n := nat_of_ascii c in
  (Nat.leb 9 n && Nat.leb n 13) || (Nat.leb 28 n && Nat.leb n 32).

Fixpoint lstrip (s : string) : string :=
  match s with
  | EmptyString => EmptyString
  | String c s' => if is_space c then lstrip s' else s
  end.

Fixpoint rstrip (s : string) : string :=
  match s with
  | EmptyString => EmptyString
  | String c s' =>
      match rstrip s' with
      | EmptyString => if is_space c then EmptyString else String c EmptyString
      | r => String c r
      end
  end.

Definition ascii_strip (s : string) : string := rstrip (lstrip s).

Definition digit_value (c : ascii) : option Z :=
  let n := nat_of_ascii c in
  if Nat.leb 48 n && Nat.leb n 57 then Some (Z.of_nat (n - 48)) else None.

(** Decimal digits, single underscores allowed between two digits. *)
Fixpoint digits_value (s : string) (acc : Z) (after_digit : bool) : option Z :=
  match s with
  | EmptyString => if after_digit then Some acc else None
  | String c s' =>
      match digit_value c with
      | Some d => digits_value s' (10 * acc + d)%Z true
      | None =>
          if decide (c = "_"%char) then
            if after_digit then digits_value s' acc false else None
          else None
      end
  end.

Definition ascii_int (s : string) : option Z :=
  match ascii_strip s with
  | String "-" s' => Z.opp <$> digits_value s' 0 false
  | String "+" s' => digits_value s' 0 false
  | s' => digits_value s' 0 false
  end.

Definition ascii_builtins : PyBuiltins :=
  {| py_strip := ascii_strip; py_int := ascii_int |}.

(** ** Input readers and the command line *)

(** [[line.strip() for line in f if line.strip()]] *)
Definition read_target_func_file `{!PyBuiltins} (lines : list string)
    : list string :=
  py_strip <$> filter (λ line, py_strip line ≠ EmptyString) lines.

(** [f.readline().strip()]; [readline] gives the empty string at the end of
    the file. *)
Definition read_entry_func `{!PyBuiltins} (lines : list string) : string :=
  py_strip (default EmptyString (head lines)).

(** The order of Python strings, character by character, a proper prefix
    first.  On UTF-8 bytes it is the order of the code points. *)
Definition string_le (a b : string) : Prop := String.leb a b = true.

#[global] Instance string_le_dec : RelDecision string_le.
Proof. intros a b. unfold string_le. apply _. Defined.

(** [sorted(...)] on a collection of strings *)
Definition py_sorted (l : list string) : list string := merge_sort string_le l.

Definition newline : string := String "010" EmptyString.

Definition entry_func_file : string := "entry_func.txt".
Definition call_graph_file : string := "call_graph.txt".
Definition target_func_file : string := "target_funcs.txt".
Definition output_file : string := "instrumented_funcs.txt".

(** How a run of [main] ends.  [printed] holds the parser's diagnostics
    written to standard output up to that point. *)
Inductive main_outcome :=
  | ExitUsage                                   (* usage message, [sys.exit(1)] *)
  | FileNotFound (name : string) (printed : list string)
                                                (* [open] raised on a missing input *)
  | Written (dir : gmap string (list string)) (printed : list string).

(** [main], on the argument vector and the content of the directory that
    [sys.argv[1]] names: file name -> lines.  Each line written to the
    output file ends with a newline.  The closing message, which shows the
    output path as [pathlib] renders it, is not part of [printed].  This
    is the run in which no path search exceeds the recursion limit;
    [main_run] below is the run under a given limit. *)
Definition main `{!PyBuiltins} (argv : list string)
    (dir : gmap string (list string)) : main_outcome :=
  match argv with
  | [_; _] =>
      match dir !! entry_func_file with
      | None => FileNotFound entry_func_file []
      | Some entry_lines =>
          let entry_func := read_entry_func entry_lines in
          match dir !! call_graph_file with
          | None => FileNotFound call_graph_file []
          | Some graph_lines =>
              let st := parse_lines graph_lines in
              match dir !! target_func_file with
              | None => FileNotFound target_func_file (st_printed st)
              | Some target_lines =>
                  let target_funcs := read_target_func_file target_lines in
                  let bb_calls : bb_calls_t := ∅ in
                  let result :=
                    compute_instrumentation_set
                      (st_call_graph st) (st_call_sites st) bb_calls
                      entry_func target_funcs in
                  Written
                    (<[output_file :=
                         (λ func, String.append func newline)
                           <$> py_sorted (elements result)]> dir)
                    (st_printed st)
              end
          end
      end
  | _ => ExitUsage
  end.

(** How a run of [main] ends when [frames] interpreter frames are left for
    each path search. *)
Inductive run_outcome :=
  | RecursionError (printed : list string)
      (* raised by [dfs], caught nowhere: the run dies before the output
         file is opened *)
  | Ended (outcome : main_outcome).

Definition main_run `{!PyBuiltins} (frames : nat) (argv : list string)
    (dir : gmap string (list string)) : run_outcome :=
  match argv with
  | [_; _] =>
      match dir !! entry_func_file with
      | None => Ended (FileNotFound entry_func_file [])
      | Some entry_lines =>
          let entry_func := read_entry_func entry_lines in
          match dir !! call_graph_file with
          | None => Ended (FileNotFound call_graph_file [])
          | Some graph_lines =>
              let st := parse_lines graph_lines in
              match dir !! target_func_file with
              | None => Ended (FileNotFound target_func_file (st_printed st))
              | Some target_lines =>
                  let target_funcs := read_target_func_file target_lines in
                  let bb_calls : bb_calls_t := ∅ in
                  match compute_instrumentation_set_run frames
                          (st_call_graph st) (st_call_sites st) bb_calls
                          entry_func target_funcs with
                  | None => RecursionError (st_printed st)
                  | Some result =>
                      Ended
                        (Written
                           (<[output_file :=
                                (λ func, String.append func newline)
                                  <$> py_sorted (elements result)]> dir)
                           (st_printed st))
                  end
              end
          end
      end
  | _ => Ended ExitUsage
  end.

(** ** Example inputs *)

(** A chain of three callers, [A -> B -> C -> D]. *)
Definition graph_chain : call_graph_t :=
  <["A" := ["B"]]> (<["B" := ["C"]]> (<["C" := ["D"]]> ∅)).

(** A directory whose call graph is that chain. *)
Definition example_dir_chain : gmap string (list string) :=
  <[entry_func_file := ["A"]]>
    (<[call_graph_file := ["A,B:1"; "B,C:1"; "C,D:1"]]>
       (<[target_func_file := ["D"]]> ∅)).


(** The scenario graph [A,B:1 / A,C:2 / B,D:1]. *)
Definition graph_abd : call_graph_t :=
  <["A" := ["B"; "C"]]> (<["B" := ["D"]]> ∅).

(** A graph with a cycle and a self-loop. *)
Definition graph_cyc : call_graph_t :=
  <["A" := ["B"; "A"]]> (<["B" := ["A"; "C"]]> (<["C" := ["C"]]> ∅)).

Definition sites_abcd : call_sites_t :=
  <["A" := [("B", 1%Z); ("C", 2%Z); ("D", 3%Z)]]> ∅.

Definition file_with_noise : list string :=
  ["A,B:1"; "foo-bar"; ""; "A,C:x"; "A,B,C:2"; " B,D:7 "; "A,C:2"].

(** A working directory: one noisy edge file, a target list with a blank
    line and a repetition. *)
Definition example_dir : gmap string (list string) :=
  <[entry_func_file := ["A"]]>
    (<[call_graph_file := ["A,B:1"; "foo-bar"; "A,C:2"; "A,C:x"; "B,D:1"]]>
       (<[target_func_file := ["D"; ""; " D "]]> ∅)).

Definition bb_example : bb_calls_t :=
  <["A" := [["B"]; ["C"; "B"]]]> (<["C" := [["E"]]]> ∅).

(** The same inputs without the noise, with an entry file of two lines. *)
Definition example_dir_clean : gmap string (list string) :=
  <[entry_func_file := ["A"; "ignored"]]>
    (<[call_graph_file := ["A,B:1"; "A,C:2"; "B,D:1"]]>
       (<[target_func_file := ["D"]]> ∅)).

(** A directory whose target file holds blank lines only. *)
Definition example_dir_blank : gmap string (list string) :=
  <[target_func_file := [""; "  "]]> example_dir.

Definition sites_extra : call_sites_t :=
  <["X" := [("B", 1%Z)]]> sites_abcd.

(** * Properties *)

Example get_call_path_abd : get_call_path graph_abd "A" "D" = ["A"; "B"; "D"].
Proof. vm_compute. reflexivity. Qed.

Example get_call_path_cyc : get_call_path graph_cyc "A" "C" = ["A"; "B"; "C"].
Proof. vm_compute. reflexivity. Qed.

Example get_call_path_missing : get_call_path graph_cyc "A" "Z" = [].
Proof. vm_compute. reflexivity. Qed.

Example preceding_abcd :
  get_preceding_dependent_funcs sites_abcd "D" = {["B"; "C"]}.
Proof. vm_compute. reflexivity. Qed.

Example closure_cyc :
  get_recursive_dependencies graph_cyc ["B"] = {["A"; "B"; "C"]}.
Proof. vm_compute. reflexivity. Qed.

Example parse_noise :
  @parse_call_graph_file ascii_builtins file_with_noise
  = (<["A" := ["B"; "C"]]> (<["B" := ["D"]]> ∅),
     <["A" := [("B", 1%Z); ("C", 2%Z)]]> (<["B" := [("D", 7%Z)]]> ∅)).
Proof. vm_compute. reflexivity. Qed.

Example printed_noise :
  st_printed (@parse_lines ascii_builtins file_with_noise)
  = ["Skipping malformed line: A,C:x"; "Skipping malformed line: A,B,C:2"].
Proof. vm_compute. reflexivity. Qed.

Example ascii_int_samples :
  ascii_int " 12 " = Some 12%Z ∧ ascii_int "-7" = Some (-7)%Z
  ∧ ascii_int "1_000" = Some 1000%Z ∧ ascii_int "1__0" = None
  ∧ ascii_int "7_" = None ∧ ascii_int "x" = None ∧ ascii_int "" = None.
Proof. vm_compute. repeat split. Qed.

(** Scenario [A,B:1 / A,C:2 / B,D:1], entry [A], target [D]. *)
Example instrumentation_abd :
  let gs := @parse_call_graph_file ascii_builtins ["A,B:1"; "A,C:2"; "B,D:1"] in
  get_preceding_dependent_funcs gs.2 "D" = ∅
  ∧ compute_instrumentation_set gs.1 gs.2 ∅ "A" ["D"] = {["A"; "B"; "D"]}.
Proof. vm_compute. split; reflexivity. Qed.

(** Scenario [A,B:1 / A,C:2 / A,D:3], target [D]. *)
Example instrumentation_abcd :
  let gs := @parse_call_graph_file ascii_builtins ["A,B:1"; "A,C:2"; "A,D:3"] in
  get_preceding_dependent_funcs gs.2 "D" = {["B"; "C"]}
  ∧ compute_instrumentation_set gs.1 gs.2 ∅ "A" ["D"] = {["A"; "B"; "C"; "D"]}.
Proof. vm_compute. split; reflexivity. Qed.

(** ** Facts about the depth-first search *)

(** One step of the search, as the source reads. *)
Lemma dfs_unfold fuel cg target node st :
  dfs (S fuel) cg target node st =
  if decide (node ∈ visited st) then Some (false, st)
  else
    let st1 := DfsState ({[node]} ∪ visited st)
                        (current_path st ++ [node]) (path st) in
    if decide (node = target) then
      Some (true, DfsState (visited st1) (current_path st1)
                           (path st1 ++ current_path st1))
    else
      match dfs_for (dfs fuel cg target) (callees cg node) st1 with
      | None => None
      | Some (true, st2) => Some (true, st2)
      | Some (false, st2) =>
          match current_path st2 with
          | [] => None
          | _ :: _ =>
              Some (false, DfsState (visited st2)
                                    (removelast (current_path st2)) (path st2))
          end
      end.
Proof. reflexivity. Qed.

(** A loop whose body satisfies a step property [P] on every state that
    satisfies [I], and re-establishes [I] when it answers [False]. *)
Lemma dfs_for_ind {S : Type} (rec : string → S → option (bool * S))
    (I : S → Prop) (Q : S → bool → S → Prop) cs :
  (∀ c st b st', c ∈ cs → I st → rec c st = Some (b, st') →
     Q st b st' ∧ (b = false → I st')) →
  ∀ st b st', I st → dfs_for rec cs st = Some (b, st') →
    ∃ stk, I stk ∧ if b then Q stk true st' else stk = st'.
Proof.
  induction cs as [|c cs IH]; intros Hrec st b st' HI Hrun; simpl in Hrun.
  - inversion Hrun; subst. eauto.
  - destruct (rec c st) as [[[] st1]|] eqn:Hc; [| |done].
    + inversion Hrun; subst.
      destruct (Hrec c st true st') as [HQ _]; [left|done|done|]. eauto.
    + destruct (Hrec c st false st1) as [_ HI1]; [left|done|done|].
      apply (IH (λ c' s b' s' Hin, Hrec c' s b' s' (list_elem_of_further _ _ _ Hin))
                st1 b st' (HI1 eq_refl) Hrun).
Qed.

Section dfs_facts.
Context (cg : call_graph_t) (target : string).

(** The visited set only grows. *)
Lemma dfs_visited_mono fuel node st b st' :
  dfs fuel cg target node st = Some (b, st') → visited st ⊆ visited st'.
Proof.
  revert node st b st'.
  induction fuel as [|fuel IH]; intros node st b st' Hrun; [done|].
  rewrite dfs_unfold in Hrun.
  destruct (decide (node ∈ visited st)); [by inversion Hrun; subst|].
  destruct (decide (node = target)); [inversion Hrun; subst; simpl; set_solver|].
  cbv zeta in Hrun.
  destruct (dfs_for _ _ _) as [[b2 st2]|] eqn:Hloop; [|done].
  assert (Hsub : {[node]} ∪ visited st ⊆ visited st2).
  { destruct (dfs_for_ind (dfs fuel cg target)
               (λ s, {[node]} ∪ visited st ⊆ visited s)
               (λ s _ s', visited s ⊆ visited s')
               (callees cg node)) with (3 := Hloop) as (stk & Hk & Hend).
    - intros c s b' s' _ Hs Hc. apply IH in Hc. split; [done|]. set_solver.
    - simpl. set_solver.
    - destruct b2; [set_solver | by subst]. }
  destruct b2; [|destruct (current_path st2); [done|]];
    inversion Hrun; subst; simpl; set_solver.
Qed.

Lemma chain_lookup u q i a b :
  chain cg u q → (u :: q) !! i = Some a → (u :: q) !! S i = Some b → edge cg a b.
Proof.
  revert u i. induction q as [|v q IH]; intros u i [] Ha Hb.
  - destruct i; done.
  - destruct i as [|i]; simpl in *.
    + by inversion Ha; inversion Hb; subst.
    + by eapply IH.
Qed.


Lemma dfs_spec fuel node st b st' :
  dfs fuel cg target node st = Some (b, st') → dfs_post cg target node st b st'.
Proof.
  revert node st b st'.
  induction fuel as [|fuel IH]; intros node st b st' Hrun; [done|].
  rewrite dfs_unfold in Hrun.
  destruct (decide (node ∈ visited st)); [by inversion Hrun; subst|].
  destruct (decide (node = target)) as [->|Hne].
  { inversion Hrun; subst; simpl. by exists []. }
  cbv zeta in Hrun.
  destruct (dfs_for _ _ _) as [[b2 st2]|] eqn:Hloop; [|done].
  destruct (dfs_for_ind (dfs fuel cg target)
             (λ s, current_path s = current_path st ++ [node]
                   ∧ path s = path st)
             (λ s b' s', ∃ c, c ∈ callees cg node ∧ dfs_post cg target c s b' s')
             (callees cg node)) with (3 := Hloop) as (stk & [Hcp Hp] & Hend).
  - intros c s b' s' Hin [Hs1 Hs2] Hc. apply IH in Hc. split; [eauto|].
    intros ->. destruct Hc as [-> ->]. done.
  - done.
  - destruct b2.
    + inversion Hrun; subst; simpl.
      destruct Hend as (c & Hin & q & Hq & Hlast & Hch).
      exists (c :: q). rewrite Hq, Hcp, Hp, <-!app_assoc. done.
    + subst stk. rewrite Hcp in Hrun.
      destruct (current_path st ++ [node]) as [|a l] eqn:Hpush; [done|].
      rewrite <-Hpush, removelast_last in Hrun. by inversion Hrun; subst.
Qed.

(** A loop that answers [False] has restored the stack; in particular
    the [pop] that follows it finds the node that was pushed. *)
Lemma dfs_for_false fuel cs st st' :
  dfs_for (dfs fuel cg target) cs st = Some (false, st') →
  current_path st' = current_path st ∧ path st' = path st.
Proof.
  intros Hloop.
  destruct (dfs_for_ind (dfs fuel cg target)
             (λ s, current_path s = current_path st ∧ path s = path st)
             (λ _ _ _, True) cs) with (3 := Hloop) as (stk & Hk & ->);
    [|done|done].
  intros c s b s' _ [Hs1 Hs2] Hc. split; [done|]. intros ->.
  apply dfs_spec in Hc as [-> ->]. done.
Qed.




(** More fuel does not change an answer. *)
Lemma dfs_for_mono {S : Type} (rec1 rec2 : string → S → option (bool * S)) :
  (∀ c st r, rec1 c st = Some r → rec2 c st = Some r) →
  ∀ cs st r, dfs_for rec1 cs st = Some r → dfs_for rec2 cs st = Some r.
Proof.
  intros Hrec cs. induction cs as [|c cs IH]; intros st r Hrun; [done|].
  simpl in *. destruct (rec1 c st) as [[[] s1]|] eqn:Hc; [| |done];
    rewrite (Hrec _ _ _ Hc); auto.
Qed.

Lemma dfs_fuel_mono fuel fuel' node st r :
  fuel ≤ fuel' → dfs fuel cg target node st = Some r →
  dfs fuel' cg target node st = Some r.
Proof.
  revert fuel' node st r.
  induction fuel as [|fuel IH]; intros fuel' node st r Hle Hrun; [done|].
  destruct fuel' as [|fuel']; [lia|].
  rewrite dfs_unfold in *.
  destruct (decide (node ∈ visited st)); [done|].
  destruct (decide (node = target)); [done|]. cbv zeta in *.
  destruct (dfs_for (dfs fuel cg target) _ _) as [r2|] eqn:Hloop; [|done].
  erewrite (dfs_for_mono (dfs fuel cg target) (dfs fuel' cg target)); eauto.
  intros c s r' Hc. apply IH; [lia|done].
Qed.

(** The search returns as soon as the fuel exceeds the number of callers
    not yet visited. *)
Lemma dfs_terminates fuel node st :
  size (dom cg ∖ visited st) < fuel →
  is_Some (dfs fuel cg target node st).
Proof.
  revert node st.
  induction fuel as [|fuel IH]; intros node st Hsz; [lia|].
  rewrite dfs_unfold.
  destruct (decide (node ∈ visited st)); [eauto|].
  destruct (decide (node = target)); [eauto|]. cbv zeta.
  set (st1 := DfsState _ _ _).
  assert (Hloop : ∀ cs s, cs ⊆ callees cg node → visited st1 ⊆ visited s →
            is_Some (dfs_for (dfs fuel cg target) cs s)).
  { induction cs as [|c cs IHcs]; intros s Hcs Hs; simpl; [eauto|].
    assert (Hnode : node ∈ dom cg).
    { apply elem_of_dom. unfold callees in Hcs.
      destruct (cg !! node); [eauto|]. simpl in Hcs.
      specialize (Hcs c). rewrite elem_of_nil in Hcs. destruct Hcs. left. }
    destruct (IH c s) as [[b s'] Hc].
    { assert (dom cg ∖ visited s ⊂ dom cg ∖ visited st) as Hlt.
      { subst st1; simpl in Hs. set_solver. }
      apply subset_size in Hlt. lia. }
    rewrite Hc. destruct b; [eauto|].
    apply IHcs; [set_solver|]. apply dfs_visited_mono in Hc. set_solver. }
  destruct (Hloop (callees cg node) st1) as [[[] s2] Hrun]; [done..| |];
    rewrite Hrun; [eauto|].
  apply dfs_for_false in Hrun as [Hcur _]. subst st1; simpl in Hcur.
  destruct (current_path s2); [by destruct (current_path st)|eauto].
Qed.
End dfs_facts.

(** With the bound as fuel the search has an answer, and any larger fuel
    gives the same one. *)
Lemma get_call_path_fuel_enough cg start target fuel :
  dfs_bound cg ≤ fuel →
  get_call_path_fuel fuel cg start target = Some (get_call_path cg start target).
Proof.
  intros Hle. unfold get_call_path, get_call_path_fuel.
  destruct (dfs_terminates cg target (dfs_bound cg) start dfs_init) as [r Hr].
  { unfold dfs_bound, dfs_init; simpl.
    rewrite difference_empty_L, size_dom. lia. }
  rewrite Hr, (dfs_fuel_mono _ _ _ _ _ _ _ Hle Hr). by destruct r.
Qed.

(** A call that returns, with however many frames, returns the answer
    [get_call_path]. *)
Lemma get_call_path_fuel_Some cg start target frames p :
  get_call_path_fuel frames cg start target = Some p →
  p = get_call_path cg start target.
Proof.
  intros Hrun.
  pose proof (get_call_path_fuel_enough cg start target
                (frames `max` dfs_bound cg) (Nat.le_max_r _ _)) as Hbig.
  unfold get_call_path_fuel in *.
  destruct (dfs frames cg target start dfs_init) as [r|] eqn:Hdfs; [|done].
  rewrite (dfs_fuel_mono cg target frames _ _ _ _ (Nat.le_max_l _ _) Hdfs) in Hbig.
  destruct r. congruence.
Qed.

(** The answer of [get_call_path] is empty or a call path. *)
Lemma get_call_path_cases cg start target :
  get_call_path cg start target = []
  ∨ ∃ q, get_call_path cg start target = start :: q
         ∧ last (start :: q) = Some target ∧ chain cg start q.
Proof.
  pose proof (get_call_path_fuel_enough cg start target _ (le_n _)) as Hrun.
  unfold get_call_path_fuel in Hrun.
  destruct (dfs _ _ _ _ _) as [[b st]|] eqn:Hdfs; [|done].
  injection Hrun as Hp. rewrite <-Hp.
  apply dfs_spec in Hdfs. destruct b; simpl in Hdfs.
  - right. destruct Hdfs as (q & Hq & Hlast & Hch). eauto.
  - left. by destruct Hdfs as [_ ->].
Qed.


(** C3: a non-empty answer of [get_call_path] starts with the entry, ends
    with the target, and each of its steps is a call edge of the graph. *)
Theorem get_call_path_valid (cg : call_graph_t) (e t : string) :
  get_call_path cg e t ≠ [] →
  head (get_call_path cg e t) = Some e
  ∧ last (get_call_path cg e t) = Some t
  ∧ ∀ i u v, get_call_path cg e t !! i = Some u →
             get_call_path cg e t !! S i = Some v →
             v ∈ callees cg u.
Proof.
  intros Hne.
  destruct (get_call_path_cases cg e t) as [|(q & -> & Hlast & Hch)]; [done|].
  split_and!; [done|done|]. intros i u v. by apply chain_lookup.
Qed.

Lemma get_call_path_valid_witness :
  get_call_path graph_abd "A" "D" ≠ []
  ∧ head (get_call_path graph_abd "A" "D") = Some "A"
  ∧ last (get_call_path graph_abd "A" "D") = Some "D".
Proof.
  assert (H : get_call_path graph_abd "A" "D" ≠ []) by (vm_compute; discriminate).
  split; [exact H|].
  destruct (get_call_path_valid graph_abd "A" "D" H) as (H1 & H2 & _).
  split; assumption.
Defined.

(** C8: searching from a function to itself answers that function alone. *)
Theorem get_call_path_self (cg : call_graph_t) (s : string) :
  get_call_path cg s s = [s]
  ∧ ∀ fuel, 0 < fuel → get_call_path_fuel fuel cg s s = Some [s].
Proof.
  assert (H : ∀ fuel, 0 < fuel → get_call_path_fuel fuel cg s s = Some [s]).
  { intros [|fuel] Hpos; [lia|]. unfold get_call_path_fuel.
    rewrite dfs_unfold. unfold dfs_init; simpl.
    rewrite decide_False by set_solver. by rewrite decide_True. }
  split; [|done]. unfold get_call_path. rewrite H; [done|]. unfold dfs_bound; lia.
Qed.

Lemma get_call_path_self_witness :
  get_call_path graph_cyc "C" "C" = ["C"]
  ∧ get_call_path_fuel 1 graph_cyc "C" "C" = Some ["C"].
Proof.
  destruct (get_call_path_self graph_cyc "C") as [H1 H2].
  split; [exact H1|]. apply H2. lia.
Defined.




(** Beyond the limit the search raises: with two frames left, the chain of
    three callers cannot be followed to its end, whether the target is
    there or not. *)
Example get_call_path_recursion_limit :
  get_call_path_fuel 2 graph_chain "A" "D" = None
  ∧ get_call_path_fuel 2 graph_chain "A" "Z" = None
  ∧ get_call_path_fuel 4 graph_chain "A" "D" = Some ["A"; "B"; "C"; "D"]
  ∧ get_call_path_fuel 4 graph_chain "A" "Z" = Some [].
Proof. vm_compute. repeat split. Qed.

(** ** Facts about the closure loop *)

(** The inner loop appends to the queue exactly the callees that were not
    yet known, each once, and adds the same functions to the set.  The
    traced loop does the same and logs what it appends. *)
Lemma add_callees_spec cs (all_deps : gset string) queue log :
  ∃ new,
    add_callees cs all_deps queue = (all_deps ∪ list_to_set new, queue ++ new)
    ∧ add_callees_traced cs all_deps queue log
      = (all_deps ∪ list_to_set new, queue ++ new, log ++ new)
    ∧ new ⊆ cs ∧ NoDup new ∧ (∀ x, x ∈ new → x ∉ all_deps)
    ∧ (∀ x, x ∈ cs → x ∈ all_deps ∪ list_to_set new).
Proof.
  revert all_deps queue log.
  induction cs as [|c cs IH]; intros all_deps queue log; simpl.
  - exists []. simpl. rewrite !app_nil_r, union_empty_r_L.
    split_and!; try done; try apply NoDup_nil_2; set_solver.
  - destruct (decide (c ∈ all_deps)) as [Hin|Hnin].
    + destruct (IH all_deps queue log) as (new & -> & -> & Hsub & Hnd & Hfresh & Hcov).
      exists new. split_and!; try done; set_solver.
    + destruct (IH ({[c]} ∪ all_deps) (queue ++ [c]) (log ++ [c]))
        as (new & -> & -> & Hsub & Hnd & Hfresh & Hcov).
      exists (c :: new). rewrite <-!app_assoc. simpl.
      replace ({[c]} ∪ all_deps ∪ list_to_set new)
        with (all_deps ∪ ({[c]} ∪ list_to_set new)) by set_solver.
      split_and!; try done.
      * set_solver.
      * apply NoDup_cons_2; [|done]. intros Hc. apply Hfresh in Hc. set_solver.
      * intros x [->|Hx]%elem_of_cons; [done|]. apply Hfresh in Hx. set_solver.
      * set_solver.
Qed.

Lemma callees_in_universe cg f x : x ∈ callees cg f → x ∈ callee_universe cg.
Proof.
  unfold callees, callee_universe. intros Hx.
  destruct (cg !! f) as [l|] eqn:Hf; simpl in Hx; [|by apply elem_of_nil in Hx].
  apply elem_of_union_list. exists (list_to_set l). split; [|set_solver].
  apply list_elem_of_fmap. exists l. split; [done|].
  apply list_elem_of_fmap. exists (f, l). split; [done|].
  by apply elem_of_map_to_list.
Qed.

(** Appending [new] fresh functions shrinks the unknown part of a universe
    by as many. *)
Lemma size_unknown_after (U all_deps : gset string) (new : list string) :
  NoDup new → (∀ x, x ∈ new → x ∉ all_deps) → (∀ x, x ∈ new → x ∈ U) →
  size (U ∖ (all_deps ∪ list_to_set new)) + length new = size (U ∖ all_deps).
Proof.
  intros Hnd Hfresh HU.
  replace (U ∖ all_deps)
    with (U ∖ (all_deps ∪ list_to_set new) ∪ list_to_set new).
  - rewrite (size_union (U ∖ (all_deps ∪ list_to_set new)) (list_to_set new))
      by set_solver.
    by rewrite (size_list_to_set (C:=gset string)).
  - apply set_eq. intros x. rewrite !elem_of_union, !elem_of_difference,
      elem_of_union, elem_of_list_to_set.
    destruct (decide (x ∈ new)); naive_solver.
Qed.

Section bfs_facts.
Context (cg : call_graph_t).

Lemma bfs_loop_unfold fuel all_deps func queue :
  bfs_loop (S fuel) cg all_deps (func :: queue) =
  let '(all_deps', queue') := add_callees (callees cg func) all_deps queue in
  bfs_loop fuel cg all_deps' queue'.
Proof. reflexivity. Qed.

Lemma bfs_loop_fuel_mono fuel fuel' all_deps queue R :
  fuel ≤ fuel' → bfs_loop fuel cg all_deps queue = Some R →
  bfs_loop fuel' cg all_deps queue = Some R.
Proof.
  revert fuel' all_deps queue.
  induction fuel as [|fuel IH]; intros fuel' all_deps queue Hle Hrun.
  - destruct queue; [|done]. by destruct fuel'.
  - destruct queue as [|func queue]; [by destruct fuel'|].
    destruct fuel' as [|fuel']; [lia|]. rewrite bfs_loop_unfold in *.
    destruct (add_callees _ _ _). apply IH; [lia|done].
Qed.

(** The loop ends once the fuel covers the queue and the callees not yet
    known. *)
Lemma bfs_loop_terminates fuel all_deps queue :
  length queue + size (callee_universe cg ∖ all_deps) ≤ fuel →
  is_Some (bfs_loop fuel cg all_deps queue).
Proof.
  revert all_deps queue.
  induction fuel as [|fuel IH]; intros all_deps queue Hle.
  - destruct queue; simpl in *; [eauto|lia].
  - destruct queue as [|func queue]; [simpl; eauto|].
    rewrite bfs_loop_unfold.
    destruct (add_callees_spec (callees cg func) all_deps queue [])
      as (new & -> & _ & Hsub & Hnd & Hfresh & _).
    apply IH. rewrite length_app.
    pose proof (size_unknown_after (callee_universe cg) all_deps new Hnd Hfresh)
      as Hsz.
    rewrite <-Hsz in Hle; [simpl in Hle; lia|].
    intros x Hx. eapply callees_in_universe, Hsub, Hx.
Qed.

(** The result contains what was known at the start. *)
Lemma bfs_loop_extends fuel all_deps queue R :
  bfs_loop fuel cg all_deps queue = Some R → all_deps ⊆ R.
Proof.
  revert all_deps queue.
  induction fuel as [|fuel IH]; intros all_deps queue Hrun.
  - destruct queue; [|done]. by inversion Hrun.
  - destruct queue as [|func queue]; [by inversion Hrun|].
    rewrite bfs_loop_unfold in Hrun.
    destruct (add_callees_spec (callees cg func) all_deps queue [])
      as (new & Hadd & _). rewrite Hadd in Hrun.
    apply IH in Hrun. set_solver.
Qed.

(** Every known function is still queued or has all its callees known:
    then the result is closed under call edges. *)
Lemma bfs_loop_closed fuel all_deps queue R :
  bfs_loop fuel cg all_deps queue = Some R →
  (∀ f, f ∈ all_deps → f ∈ queue ∨ ∀ g, edge cg f g → g ∈ all_deps) →
  ∀ f g, f ∈ R → edge cg f g → g ∈ R.
Proof.
  revert all_deps queue.
  induction fuel as [|fuel IH]; intros all_deps queue Hrun Hinv.
  - destruct queue; [|done]. inversion Hrun; subst.
    intros f g Hf. destruct (Hinv f Hf) as [Hq|Hcl]; [by apply elem_of_nil in Hq|auto].
  - destruct queue as [|func queue].
    { inversion Hrun; subst. intros f g Hf.
      destruct (Hinv f Hf) as [Hq|Hcl]; [by apply elem_of_nil in Hq|auto]. }
    rewrite bfs_loop_unfold in Hrun.
    destruct (add_callees_spec (callees cg func) all_deps queue [])
      as (new & Hadd & _ & _ & _ & _ & Hcov). rewrite Hadd in Hrun.
    apply (IH _ _ Hrun). intros f [Hf|Hf]%elem_of_union.
    + destruct (Hinv f Hf) as [[->|Hq]%elem_of_cons|Hcl].
      * right. intros g Hg. by apply Hcov.
      * left. set_solver.
      * right. intros g Hg. apply elem_of_union. left. by apply Hcl.
    + left. set_solver.
Qed.

(** Everything in the result satisfies any property that holds of what
    was known at the start and is passed on along call edges. *)
Lemma bfs_loop_sound (P : string → Prop) fuel all_deps queue R :
  (∀ f g, P f → edge cg f g → P g) →
  bfs_loop fuel cg all_deps queue = Some R →
  (∀ f, f ∈ queue → f ∈ all_deps) → (∀ f, f ∈ all_deps → P f) →
  ∀ f, f ∈ R → P f.
Proof.
  intros HP. revert all_deps queue.
  induction fuel as [|fuel IH]; intros all_deps queue Hrun Hq Hall.
  - destruct queue; [|done]. by inversion Hrun; subst.
  - destruct queue as [|func queue]; [by inversion Hrun; subst|].
    rewrite bfs_loop_unfold in Hrun.
    destruct (add_callees_spec (callees cg func) all_deps queue [])
      as (new & Hadd & _ & Hsub & _). rewrite Hadd in Hrun.
    apply (IH _ _ Hrun).
    + intros f [Hf|Hf]%elem_of_app; [|set_solver].
      apply elem_of_union. left. apply Hq. by right.
    + intros f [Hf|Hf]%elem_of_union; [auto|].
      apply (HP func); [apply Hall, Hq; left|].
      apply Hsub. set_solver.
Qed.

(** The traced loop computes the same set. *)
Lemma bfs_loop_traced_erase fuel all_deps queue log :
  fst <$> bfs_loop_traced fuel cg all_deps queue log
  = bfs_loop fuel cg all_deps queue.
Proof.
  revert all_deps queue log.
  induction fuel as [|fuel IH]; intros all_deps queue log.
  - by destruct queue.
  - destruct queue as [|func queue]; [done|]. simpl.
    destruct (add_callees_spec (callees cg func) all_deps queue log)
      as (new & -> & -> & _). apply IH.
Qed.

(** Nothing is put on the queue twice. *)
Lemma bfs_loop_traced_nodup fuel all_deps queue log R log' :
  bfs_loop_traced fuel cg all_deps queue log = Some (R, log') →
  NoDup log → (∀ x, x ∈ log → x ∈ all_deps) → NoDup log'.
Proof.
  revert all_deps queue log.
  induction fuel as [|fuel IH]; intros all_deps queue log Hrun Hnd Hlog.
  - destruct queue; [|done]. by inversion Hrun; subst.
  - destruct queue as [|func queue]; [by inversion Hrun; subst|].
    simpl in Hrun.
    destruct (add_callees_spec (callees cg func) all_deps queue log)
      as (new & _ & Hadd & _ & Hnew & Hfresh & _). rewrite Hadd in Hrun.
    apply (IH _ _ _ Hrun).
    + apply NoDup_app. split_and!; [done| |done].
      intros x Hx Hx'. by apply (Hfresh x Hx'), Hlog.
    + intros x [Hx|Hx]%elem_of_app; set_solver.
Qed.
End bfs_facts.

(** With the bound as fuel the closure has an answer, and any larger fuel
    gives the same one. *)
Lemma get_recursive_dependencies_fuel_enough cg initial_funcs fuel :
  bfs_bound cg initial_funcs ≤ fuel →
  get_recursive_dependencies_fuel fuel cg initial_funcs
  = Some (get_recursive_dependencies cg initial_funcs).
Proof.
  intros Hle. unfold get_recursive_dependencies, get_recursive_dependencies_fuel.
  destruct (bfs_loop_terminates cg (bfs_bound cg initial_funcs)
              (list_to_set initial_funcs) initial_funcs) as [R HR].
  { unfold bfs_bound. apply Nat.add_le_mono_l, subseteq_size. set_solver. }
  unfold get_recursive_dependencies_fuel.
  by rewrite HR, (bfs_loop_fuel_mono _ _ _ _ _ _ Hle HR).
Qed.

(** C5: the closure contains its seeds and is closed under the call edges
    of the graph. *)
Theorem get_recursive_dependencies_closed (G : call_graph_t) (S : list string) :
  (∀ f, f ∈ S → f ∈ get_recursive_dependencies G S)
  ∧ (∀ f g, f ∈ get_recursive_dependencies G S → g ∈ callees G f →
            g ∈ get_recursive_dependencies G S).
Proof.
  pose proof (get_recursive_dependencies_fuel_enough G S _ (le_n _)) as Hrun.
  unfold get_recursive_dependencies_fuel in Hrun. split.
  - intros f Hf. apply (bfs_loop_extends _ _ _ _ _ Hrun).
    by apply elem_of_list_to_set.
  - apply (bfs_loop_closed _ _ _ _ _ Hrun).
    intros f Hf. left. by apply elem_of_list_to_set in Hf.
Qed.

Lemma get_recursive_dependencies_closed_witness :
  "B" ∈ get_recursive_dependencies graph_cyc ["B"]
  ∧ "C" ∈ get_recursive_dependencies graph_cyc ["B"].
Proof.
  destruct (get_recursive_dependencies_closed graph_cyc ["B"]) as [Hseed Hclosed].
  assert (HB : "B" ∈ get_recursive_dependencies graph_cyc ["B"])
    by (apply Hseed; left).
  split; [exact HB|].
  apply (Hclosed "B" "C" HB). vm_compute. right; left.
Defined.

(** Membership in the closure is reachability from the seeds. *)
Lemma elem_of_get_recursive_dependencies (G : call_graph_t) (S : list string)
    (f : string) :
  f ∈ get_recursive_dependencies G S ↔ reachable_from G S f.
Proof.
  pose proof (get_recursive_dependencies_fuel_enough G S _ (le_n _)) as Hrun.
  unfold get_recursive_dependencies_fuel in Hrun. split.
  - revert f. apply (bfs_loop_sound G (reachable_from G S) _ _ _ _
                       (reach_call G S) Hrun).
    + intros f Hf. by apply elem_of_list_to_set.
    + intros f Hf. apply reach_seed. by apply elem_of_list_to_set in Hf.
  - induction 1 as [f Hf|f g _ IH Hedge].
    + apply (bfs_loop_extends _ _ _ _ _ Hrun). by apply elem_of_list_to_set.
    + apply (bfs_loop_closed _ _ _ _ _ Hrun) with f; [|done|done].
      intros h Hh. left. by apply elem_of_list_to_set in Hh.
Qed.

(** The closure depends on which functions are seeds, not on the order in
    which the seeds are enumerated: a Python set may be handed over in any
    iteration order. *)
Lemma get_recursive_dependencies_seed_order (G : call_graph_t)
    (S1 S2 : list string) :
  (∀ x, x ∈ S1 ↔ x ∈ S2) →
  get_recursive_dependencies G S1 = get_recursive_dependencies G S2.
Proof.
  intros Hsame.
  assert (Hreach : ∀ A B : list string, (∀ x, x ∈ A → x ∈ B) →
            ∀ f, reachable_from G A f → reachable_from G B f).
  { intros A B HAB f. induction 1 as [f Hf|f g _ IH Hedge].
    - apply reach_seed. auto.
    - by apply reach_call with f. }
  apply set_eq. intros f. rewrite !elem_of_get_recursive_dependencies.
  split; apply Hreach; intros x; apply Hsame.
Qed.

(** C10: the closure holds exactly the seeds and the functions reachable
    from them along call edges; it is the least set that contains the seeds
    and is closed under call edges. *)
Theorem get_recursive_dependencies_exact (G : call_graph_t) (S : list string) :
  (∀ f, f ∈ get_recursive_dependencies G S ↔ reachable_from G S f)
  ∧ (∀ X : gset string,
       (∀ f, f ∈ S → f ∈ X) →
       (∀ f g, f ∈ X → g ∈ callees G f → g ∈ X) →
       get_recursive_dependencies G S ⊆ X).
Proof.
  split; [apply elem_of_get_recursive_dependencies|].
  intros X Hseeds Hclosed f Hf.
  apply elem_of_get_recursive_dependencies in Hf.
  induction Hf as [f Hf|f g _ IH Hedge]; [auto|]. by apply Hclosed with f.
Qed.

Lemma get_recursive_dependencies_exact_witness :
  "C" ∈ get_recursive_dependencies graph_cyc ["B"]
  ∧ get_recursive_dependencies graph_cyc ["B"] ⊆ {["A"; "B"; "C"; "Z"]}.
Proof.
  destruct (get_recursive_dependencies_exact graph_cyc ["B"]) as [Hreach Hleast].
  split.
  - apply Hreach. apply reach_call with "B"; [apply reach_seed; left|].
    vm_compute. right; left.
  - apply Hleast.
    + intros f ->%list_elem_of_singleton. vm_compute. reflexivity.
    + intros f g Hf Hg.
      destruct (decide (f = "A")) as [->|HA]; [vm_compute in Hg|].
      { apply elem_of_cons in Hg as [->|Hg]; [vm_compute; reflexivity|].
        apply list_elem_of_singleton in Hg as ->. vm_compute. reflexivity. }
      destruct (decide (f = "B")) as [->|HB]; [vm_compute in Hg|].
      { apply elem_of_cons in Hg as [->|Hg]; [vm_compute; reflexivity|].
        apply list_elem_of_singleton in Hg as ->. vm_compute. reflexivity. }
      destruct (decide (f = "C")) as [->|HC]; [vm_compute in Hg|].
      { apply list_elem_of_singleton in Hg as ->. vm_compute. reflexivity. }
      unfold callees, graph_cyc in Hg.
      rewrite !lookup_insert_ne, lookup_empty in Hg by done.
      by apply elem_of_nil in Hg.
Defined.

(** ** The traced search *)

Lemma dfs_for_erase
    (rec_t : string → dfs_state * list string
             → option (bool * (dfs_state * list string)))
    (rec : string → dfs_state → option (bool * dfs_state)) :
  (∀ c s l, (λ r, (r.1, r.2.1)) <$> rec_t c (s, l) = rec c s) →
  ∀ cs s l, (λ r, (r.1, r.2.1)) <$> dfs_for rec_t cs (s, l) = dfs_for rec cs s.
Proof.
  intros Hrec cs. induction cs as [|c cs IH]; intros s l; [done|]. simpl.
  rewrite <-(Hrec c s l).
  destruct (rec_t c (s, l)) as [[[] [s' l']]|]; simpl; auto.
Qed.

Section dfs_traced_facts.
Context (cg : call_graph_t) (target : string).

(** Forgetting the log gives the search itself. *)
Lemma dfs_traced_erase fuel node st log :
  (λ r, (r.1, r.2.1)) <$> dfs_traced fuel cg target node (st, log)
  = dfs fuel cg target node st.
Proof.
  revert node st log.
  induction fuel as [|fuel IH]; intros node st log; [done|].
  rewrite dfs_unfold. simpl.
  destruct (decide (node ∈ visited st)); [done|].
  destruct (decide (node = target)); [done|].
  rewrite <-(dfs_for_erase (dfs_traced fuel cg target) (dfs fuel cg target) IH
               _ _ (log ++ [node])).
  destruct (dfs_for (dfs_traced fuel cg target) _ _) as [[[] [s2 l2]]|];
    [done| |done].
  simpl. by destruct (current_path s2).
Qed.

(** The log never repeats a node: a node is logged when it enters
    [visited], and a visited node is turned away by the guard. *)
Lemma dfs_traced_log fuel node sl b sl' :
  dfs_traced fuel cg target node sl = Some (b, sl') →
  NoDup sl.2 ∧ (∀ x, x ∈ sl.2 → x ∈ visited sl.1) →
  NoDup sl'.2 ∧ (∀ x, x ∈ sl'.2 → x ∈ visited sl'.1).
Proof.
  revert node sl b sl'.
  induction fuel as [|fuel IH]; intros node [st log] b sl' Hrun [Hnd Hlog];
    [done|].
  simpl in Hrun.
  destruct (decide (node ∈ visited st)) as [|Hnew]; [by inversion Hrun; subst|].
  assert (Hnd1 : NoDup (log ++ [node])).
  { apply NoDup_app. split_and!; [done| |apply NoDup_singleton].
    intros x Hx ->%list_elem_of_singleton. by apply Hnew, Hlog. }
  assert (Hlog1 : ∀ x, x ∈ log ++ [node] → x ∈ {[node]} ∪ visited st).
  { intros x [Hx|Hx]%elem_of_app; [apply Hlog in Hx|]; set_solver. }
  destruct (decide (node = target)); [by inversion Hrun; subst|].
  destruct (dfs_for _ _ _) as [[b2 sl2]|] eqn:Hloop; [|done].
  assert (Hinv2 : NoDup sl2.2 ∧ (∀ x, x ∈ sl2.2 → x ∈ visited sl2.1)).
  { destruct (dfs_for_ind (dfs_traced fuel cg target)
               (λ s, NoDup s.2 ∧ (∀ x, x ∈ s.2 → x ∈ visited s.1))
               (λ _ _ s', NoDup s'.2 ∧ (∀ x, x ∈ s'.2 → x ∈ visited s'.1))
               (callees cg node)) with (3 := Hloop) as (sk & Hk & Hend).
    - intros c s b' s' _ Hs Hc. split; [|intros _]; by eapply IH.
    - done.
    - destruct b2; [done|by subst]. }
  destruct b2; [|destruct (current_path sl2.1); [done|]];
    inversion Hrun; subst; done.
Qed.
End dfs_traced_facts.

(** C6: on every graph, cyclic or not, the path search and the closure come
    back for every fuel from their bound on; the search runs its body for a
    node at most once, and the closure, started from duplicate-free seeds,
    puts a function on its queue at most once. *)
Theorem searches_terminate (cg : call_graph_t) :
  (∀ start target fuel, dfs_bound cg ≤ fuel →
     ∃ b st log,
       dfs fuel cg target start dfs_init = Some (b, st)
       ∧ dfs_traced fuel cg target start (dfs_init, []) = Some (b, (st, log))
       ∧ NoDup log)
  ∧ (∀ seeds fuel, bfs_bound cg seeds ≤ fuel →
       ∃ deps log,
         get_recursive_dependencies_fuel fuel cg seeds = Some deps
         ∧ get_recursive_dependencies_traced fuel cg seeds = Some (deps, log)
         ∧ (NoDup seeds → NoDup log)).
Proof.
  split.
  - intros start target fuel Hle.
    destruct (dfs_terminates cg target fuel start dfs_init) as [[b st] Hrun].
    { unfold dfs_bound in Hle. unfold dfs_init; simpl.
      rewrite difference_empty_L, size_dom. lia. }
    pose proof (dfs_traced_erase cg target fuel start dfs_init []) as Her.
    rewrite Hrun in Her.
    destruct (dfs_traced _ _ _ _ _) as [[b' [st' log]]|] eqn:Htr; [|done].
    simpl in Her. inversion Her; subst.
    exists b, st, log. split_and!; [done|done|].
    apply (dfs_traced_log _ _ _ _ _ _ _ Htr). simpl. split; [apply NoDup_nil_2|].
    intros x Hx. by apply elem_of_nil in Hx.
  - intros seeds fuel Hle.
    pose proof (get_recursive_dependencies_fuel_enough cg seeds fuel Hle) as Hrun.
    pose proof (bfs_loop_traced_erase cg fuel (list_to_set seeds) seeds seeds)
      as Her.
    unfold get_recursive_dependencies_fuel in Hrun. rewrite Hrun in Her.
    unfold get_recursive_dependencies_traced, get_recursive_dependencies_fuel.
    destruct (bfs_loop_traced _ _ _ _ _) as [[deps log]|] eqn:Htr; [|done].
    simpl in Her. inversion Her; subst.
    exists (get_recursive_dependencies cg seeds), log. split_and!; [done|done|].
    intros Hnd. apply (bfs_loop_traced_nodup _ _ _ _ _ _ _ Htr Hnd).
    intros x Hx. by apply elem_of_list_to_set.
Qed.

Lemma searches_terminate_witness :
  (∃ b st log,
     dfs 4 graph_cyc "C" "A" dfs_init = Some (b, st)
     ∧ dfs_traced 4 graph_cyc "C" "A" (dfs_init, []) = Some (b, (st, log))
     ∧ NoDup log)
  ∧ (∃ deps log,
       get_recursive_dependencies_fuel 4 graph_cyc ["B"] = Some deps
       ∧ get_recursive_dependencies_traced 4 graph_cyc ["B"] = Some (deps, log)
       ∧ NoDup log).
Proof.
  destruct (searches_terminate graph_cyc) as [Hdfs Hbfs]. split.
  - apply Hdfs. vm_compute. lia.
  - destruct (Hbfs ["B"] 4) as (deps & log & H1 & H2 & H3).
    + vm_compute. lia.
    + exists deps, log. split_and!; [done|done|].
      apply H3, NoDup_singleton.
Defined.

(** ** Facts about the preceding-dependency extractor *)

Lemma elem_of_target_lines infos t (l : Z) :
  l ∈ target_lines infos t ↔ (t, l) ∈ infos.
Proof.
  unfold target_lines. rewrite list_elem_of_fmap. split.
  - intros ([c l'] & -> & [Hc Hin]%list_elem_of_filter). simpl in *. by subst.
  - intros Hin. exists (t, l). split; [done|]. by apply list_elem_of_filter.
Qed.

Lemma elem_of_collect (P : string * Z → Prop) `{∀ ci, Decision (P ci)}
    (infos : list (string * Z)) (acc : gset string) (x : string) :
  x ∈ foldl (λ acc ci, if decide (P ci) then {[ci.1]} ∪ acc else acc) acc infos
  ↔ x ∈ acc ∨ ∃ ci, ci ∈ infos ∧ P ci ∧ ci.1 = x.
Proof.
  revert acc. induction infos as [|ci infos IH]; intros acc; simpl.
  - split; [auto|]. intros [|(ci & Hin & _)]; [done|]. by apply elem_of_nil in Hin.
  - rewrite IH. split.
    + intros [Hacc|(ci' & Hin & HP & Hx)].
      * destruct (decide (P ci)); [|auto].
        apply elem_of_union in Hacc as [->%elem_of_singleton|]; [|auto].
        right. exists ci. split; [left|done].
      * right. exists ci'. split; [by right|done].
    + intros [Hacc|(ci' & [->|Hin]%elem_of_cons & HP & Hx)].
      * left. destruct (decide (P ci)); set_solver.
      * left. rewrite decide_True by done. set_solver.
      * right. eauto.
Qed.

Lemma elem_of_scan_caller t infos (acc : gset string) x :
  x ∈ scan_caller t infos acc ↔ x ∈ acc ∨ site_precedes infos t x.
Proof.
  unfold scan_caller, site_precedes.
  destruct (target_lines infos t) as [|l0 ls] eqn:Htl.
  - split; [auto|]. intros [|(line & tl & _ & _ & Hin & _)]; [done|].
    apply elem_of_target_lines in Hin. rewrite Htl in Hin.
    by apply elem_of_nil in Hin.
  - rewrite <-Htl. rewrite elem_of_collect. unfold precedes_target.
    split; (intros [Hacc|Hex]; [by left|right]).
    + destruct Hex as ([c line] & Hin & [(tl & Htlin & Hlt)%Exists_exists Hne] & Hx).
      simpl in *; subst. exists line, tl.
      split_and!; [done|done|by apply elem_of_target_lines|done].
    + destruct Hex as (line & tl & Hin & Hne & Hintl & Hlt).
      exists (x, line). split_and!; [done| |done|done].
      apply Exists_exists. exists tl. by rewrite elem_of_target_lines.
Qed.

Lemma elem_of_scan_all t (items : list (string * list (string * Z)))
    (acc : gset string) x :
  x ∈ foldl (λ acc item, scan_caller t item.2 acc) acc items
  ↔ x ∈ acc ∨ ∃ item, item ∈ items ∧ site_precedes item.2 t x.
Proof.
  revert acc. induction items as [|item items IH]; intros acc; simpl.
  - split; [auto|]. intros [|(it & Hin & _)]; [done|]. by apply elem_of_nil in Hin.
  - rewrite IH, elem_of_scan_caller. split.
    + intros [[|]|(it & Hin & Hp)]; [by left| |].
      * right. exists item. split; [left|done].
      * right. exists it. split; [by right|done].
    + intros [|(it & [->|Hin]%elem_of_cons & Hp)]; [by left; left|by left; right|].
      right. eauto.
Qed.

(** C4: the preceding dependencies of [t] are exactly the functions [f],
    other than [t], that some caller calls on a line strictly below a line
    on which that caller calls [t]; so [t] is never among them. *)
Theorem get_preceding_dependent_funcs_spec (call_sites : call_sites_t)
    (t : string) :
  (∀ f, f ∈ get_preceding_dependent_funcs call_sites t ↔
        ∃ caller infos (line tgt_line : Z),
          call_sites !! caller = Some infos
          ∧ (f, line) ∈ infos ∧ f ≠ t
          ∧ (t, tgt_line) ∈ infos ∧ (line < tgt_line)%Z)
  ∧ t ∉ get_preceding_dependent_funcs call_sites t.
Proof.
  assert (Hspec : ∀ f, f ∈ get_preceding_dependent_funcs call_sites t ↔
        ∃ caller infos (line tgt_line : Z),
          call_sites !! caller = Some infos
          ∧ (f, line) ∈ infos ∧ f ≠ t
          ∧ (t, tgt_line) ∈ infos ∧ (line < tgt_line)%Z).
  { intros f. unfold get_preceding_dependent_funcs.
    rewrite elem_of_scan_all. split.
    - intros [Hf|([caller infos] & Hin & line & tl & Hp)]; [set_solver|].
      apply elem_of_map_to_list in Hin. exists caller, infos, line, tl. by split.
    - intros (caller & infos & line & tl & Hlk & Hp). right.
      exists (caller, infos). split; [by apply elem_of_map_to_list|].
      by exists line, tl. }
  split; [done|]. intros (_ & _ & _ & _ & _ & _ & Hne & _)%Hspec. done.
Qed.

Lemma get_preceding_dependent_funcs_spec_witness :
  "B" ∈ get_preceding_dependent_funcs sites_abcd "D"
  ∧ "D" ∉ get_preceding_dependent_funcs sites_abcd "D".
Proof.
  destruct (get_preceding_dependent_funcs_spec sites_abcd "D") as [Hspec Hnot].
  split; [|exact Hnot].
  apply Hspec.
  exists "A", [("B", 1%Z); ("C", 2%Z); ("D", 3%Z)], 1%Z, 3%Z.
  split_and!; [reflexivity|left|discriminate|right; right; left|reflexivity].
Defined.

(** ** Facts about the intra-function expansion *)

Lemma add_callees_app cs1 cs2 (all_deps : gset string) queue :
  add_callees (cs1 ++ cs2) all_deps queue =
  let '(all_deps', queue') := add_callees cs1 all_deps queue in
  add_callees cs2 all_deps' queue'.
Proof.
  revert all_deps queue. induction cs1 as [|c cs1 IH]; intros all_deps queue;
    [done|]. simpl. destruct (decide (c ∈ all_deps)); apply IH.
Qed.

(** The two nested loops over blocks and their callees are one loop over
    the concatenated blocks. *)
Lemma add_blocks_concat bbs (expanded : gset string) queue :
  add_blocks bbs expanded queue = add_callees (concat bbs) expanded queue.
Proof.
  revert expanded queue. induction bbs as [|bb bbs IH]; intros expanded queue;
    [done|]. simpl. rewrite add_callees_app.
  destruct (add_callees bb expanded queue). apply IH.
Qed.

Lemma callees_flat_calls (bb_calls : bb_calls_t) func :
  callees (flat_calls bb_calls) func = concat (default [] (bb_calls !! func)).
Proof.
  unfold callees, flat_calls. rewrite lookup_fmap.
  by destruct (bb_calls !! func).
Qed.

Lemma expand_loop_bfs fuel (bb_calls : bb_calls_t) expanded queue :
  expand_loop fuel bb_calls expanded queue
  = bfs_loop fuel (flat_calls bb_calls) expanded queue.
Proof.
  revert expanded queue. induction fuel as [|fuel IH]; intros expanded queue.
  - by destruct queue.
  - destruct queue as [|func queue]; [done|]. simpl.
    rewrite add_blocks_concat, callees_flat_calls.
    destruct (add_callees _ _ _). apply IH.
Qed.

(** The expansion is the closure over the flattened block calls. *)
Lemma expand_by_internal_calls_closure func_list (bb_calls : bb_calls_t) :
  expand_by_internal_calls func_list bb_calls
  = get_recursive_dependencies (flat_calls bb_calls) func_list.
Proof.
  unfold expand_by_internal_calls, expand_by_internal_calls_fuel,
    get_recursive_dependencies, get_recursive_dependencies_fuel.
  by rewrite expand_loop_bfs.
Qed.

Lemma expand_by_internal_calls_fuel_enough func_list (bb_calls : bb_calls_t)
    fuel :
  bfs_bound (flat_calls bb_calls) func_list ≤ fuel →
  expand_by_internal_calls_fuel fuel func_list bb_calls
  = Some (expand_by_internal_calls func_list bb_calls).
Proof.
  intros Hle. rewrite expand_by_internal_calls_closure.
  unfold expand_by_internal_calls_fuel. rewrite expand_loop_bfs.
  by apply get_recursive_dependencies_fuel_enough.
Qed.

(** Without block information the expansion hands its seeds back. *)
Lemma expand_by_internal_calls_empty func_list :
  expand_by_internal_calls func_list ∅ = list_to_set func_list.
Proof.
  rewrite expand_by_internal_calls_closure. apply set_eq. intros f.
  rewrite elem_of_get_recursive_dependencies, elem_of_list_to_set. split.
  - induction 1 as [f Hf|f g _ IH Hedge]; [done|].
    unfold edge, callees, flat_calls in Hedge.
    rewrite fmap_empty, lookup_empty in Hedge. by apply elem_of_nil in Hedge.
  - apply reach_seed.
Qed.

(** ** Facts about the orchestrator *)

Lemma elem_of_accumulate (F : string → gset string) targets (acc : gset string) x :
  x ∈ foldl (λ acc t, acc ∪ F t) acc targets
  ↔ x ∈ acc ∨ ∃ t, t ∈ targets ∧ x ∈ F t.
Proof.
  revert acc. induction targets as [|t targets IH]; intros acc; simpl.
  - split; [auto|]. intros [|(t & Hin & _)]; [done|]. by apply elem_of_nil in Hin.
  - rewrite IH, elem_of_union. split.
    + intros [[|]|(t' & Hin & Hx)]; [by left| |].
      * right. exists t. split; [left|done].
      * right. exists t'. split; [by right|done].
    + intros [|(t' & [->|Hin]%elem_of_cons & Hx)]; [by left; left|by left; right|].
      right. eauto.
Qed.

(** C1: for every listed target, the instrumentation set contains the
    functions of its forward path and the closure of its preceding
    dependencies. *)
Theorem compute_instrumentation_set_superset (call_graph : call_graph_t)
    (call_sites : call_sites_t) (bb_calls : bb_calls_t) (entry : string)
    (targets : list string) (t : string) :
  t ∈ targets →
  (∀ f, f ∈ get_call_path call_graph entry t →
        f ∈ compute_instrumentation_set call_graph call_sites bb_calls
              entry targets)
  ∧ (∀ f, f ∈ get_recursive_dependencies call_graph
                (elements (get_preceding_dependent_funcs call_sites t)) →
          f ∈ compute_instrumentation_set call_graph call_sites bb_calls
                entry targets).
Proof.
  intros Ht. unfold compute_instrumentation_set.
  split; intros f Hf; apply elem_of_accumulate; right; exists t;
    (split; [done|]); unfold combined; set_solver.
Qed.

Lemma compute_instrumentation_set_superset_witness :
  "B" ∈ compute_instrumentation_set graph_abd sites_abcd ∅ "A" ["C"; "D"]
  ∧ "C" ∈ compute_instrumentation_set graph_abd sites_abcd ∅ "A" ["C"; "D"].
Proof.
  assert (Ht : "D" ∈ ["C"; "D"]) by (right; left).
  destruct (compute_instrumentation_set_superset
              graph_abd sites_abcd ∅ "A" ["C"; "D"] "D" Ht) as [Hpath Hdeps].
  split.
  - apply Hpath. vm_compute. right; left.
  - apply Hdeps. vm_compute. reflexivity.
Defined.

(** C2: with no block information, a target that has neither a path from
    the entry nor preceding dependencies contributes nothing, not even
    itself, and the set computed is the one computed without it. *)
Theorem compute_instrumentation_set_unreachable (call_graph : call_graph_t)
    (call_sites : call_sites_t) (entry : string) (t : string) :
  get_call_path call_graph entry t = [] →
  get_preceding_dependent_funcs call_sites t = ∅ →
  combined call_graph call_sites ∅ entry t = ∅
  ∧ ∀ before after,
      compute_instrumentation_set call_graph call_sites ∅ entry
        (before ++ t :: after)
      = compute_instrumentation_set call_graph call_sites ∅ entry
          (before ++ after).
Proof.
  intros Hpath Hdeps.
  assert (Hnone : combined call_graph call_sites ∅ entry t = ∅).
  { unfold combined. rewrite Hpath, Hdeps, elements_empty.
    rewrite expand_by_internal_calls_closure.
    assert (Hnil : ∀ G, get_recursive_dependencies G [] = ∅).
    { intros G. unfold get_recursive_dependencies, get_recursive_dependencies_fuel.
      by destruct (bfs_bound G []). }
    rewrite (Hnil call_graph), elements_empty, Hnil. set_solver. }
  split; [done|]. intros before after. unfold compute_instrumentation_set.
  rewrite !foldl_app. simpl. rewrite Hnone. by rewrite union_empty_r_L.
Qed.

Lemma compute_instrumentation_set_unreachable_witness :
  combined graph_abd sites_abcd ∅ "A" "Z" = ∅
  ∧ compute_instrumentation_set graph_abd sites_abcd ∅ "A" ["Z"; "D"]
    = compute_instrumentation_set graph_abd sites_abcd ∅ "A" ["D"].
Proof.
  destruct (compute_instrumentation_set_unreachable graph_abd sites_abcd "A" "Z")
    as [H1 H2]; [reflexivity|reflexivity|].
  split; [exact H1|exact (H2 [] ["D"])].
Defined.

(** ** Facts about the parser *)

Lemma dd_append_lookup {A} (d : gmap string (list A)) caller x c :
  default [] (dd_append d caller x !! c)
  = default [] (d !! c) ++ (if decide (caller = c) then [x] else []).
Proof.
  unfold dd_append. destruct (decide (caller = c)) as [->|Hne].
  - by rewrite lookup_insert_eq.
  - by rewrite lookup_insert_ne, app_nil_r.
Qed.

(** Per caller, the dictionaries built from records list that caller's
    records in their order. *)
Lemma build_lookup records (gs : call_graph_t * call_sites_t) c :
  default [] ((foldl add_record gs records).1 !! c)
  = default [] (gs.1 !! c)
    ++ ((λ r, r.1.2) <$> filter (λ r, r.1.1 = c) records)
  ∧ default [] ((foldl add_record gs records).2 !! c)
    = default [] (gs.2 !! c)
      ++ ((λ r, (r.1.2, r.2)) <$> filter (λ r, r.1.1 = c) records).
Proof.
  revert gs. induction records as [|r records IH]; intros gs; simpl.
  - by rewrite !app_nil_r.
  - destruct (IH (add_record gs r)) as [-> ->]. simpl.
    rewrite !dd_append_lookup, filter_cons.
    destruct (decide (r.1.1 = c)); simpl; by rewrite <-!app_assoc.
Qed.

Section parser_facts.
Context `{!PyBuiltins}.

Lemma parse_step_maps st raw :
  (st_call_graph (parse_step st raw), st_call_sites (parse_step st raw))
  = match parse_line raw with
    | Parsed caller callee lineno =>
        add_record (st_call_graph st, st_call_sites st) (caller, callee, lineno)
    | _ => (st_call_graph st, st_call_sites st)
    end.
Proof. unfold parse_step. by destruct (parse_line raw). Qed.

(** The dictionaries after the loop depend on the edge records only. *)
Lemma parse_fold st lines :
  (st_call_graph (foldl parse_step st lines),
   st_call_sites (foldl parse_step st lines))
  = foldl add_record (st_call_graph st, st_call_sites st) (edge_records lines).
Proof.
  revert st. induction lines as [|raw lines IH]; intros st; [done|].
  simpl. rewrite IH, parse_step_maps. unfold edge_records. simpl.
  by destruct (parse_line raw).
Qed.

Lemma parse_call_graph_file_build lines :
  parse_call_graph_file lines = build_from_records (edge_records lines).
Proof. unfold parse_call_graph_file, parse_lines. by rewrite parse_fold. Qed.

Lemma edge_records_app l1 l2 :
  edge_records (l1 ++ l2) = edge_records l1 ++ edge_records l2.
Proof. apply omap_app. Qed.

Lemma edge_records_skip raw lines :
  well_formed raw = false → edge_records (raw :: lines) = edge_records lines.
Proof.
  unfold well_formed, edge_records. simpl. by destruct (parse_line raw).
Qed.

Lemma edge_records_filter lines :
  edge_records (filter (λ raw, well_formed raw = true) lines)
  = edge_records lines.
Proof.
  induction lines as [|raw lines IH]; [done|]. rewrite filter_cons.
  destruct (decide (well_formed raw = true)) as [Hwf|Hwf].
  - change (edge_records ([raw] ++ filter (λ raw, well_formed raw = true) lines)
            = edge_records ([raw] ++ lines)).
    by rewrite !edge_records_app, IH.
  - rewrite edge_records_skip by by destruct (well_formed raw). done.
Qed.

End parser_facts.


(** * Further properties of the analysis *)

(** ** Path finder *)


(** While the search runs, the stack has no repetition and holds visited
    nodes only; so what a [True] answer appends to [path] has no
    repetition either. *)
Lemma dfs_stack_nodup cg target fuel node st b st' :
  dfs fuel cg target node st = Some (b, st') →
  NoDup (current_path st) → (∀ x, x ∈ current_path st → x ∈ visited st) →
  if b then ∃ p, path st' = path st ++ p ∧ NoDup p
  else NoDup (current_path st') ∧ (∀ x, x ∈ current_path st' → x ∈ visited st').
Proof.
  revert node st b st'.
  induction fuel as [|fuel IH]; intros node st b st' Hrun Hnd Hin; [done|].
  pose proof (dfs_spec _ _ _ _ _ _ _ Hrun) as Hpost.
  pose proof (dfs_visited_mono _ _ _ _ _ _ _ Hrun) as Hmono.
  destruct b.
  2:{ destruct Hpost as [-> _]. split; [done|]. intros x Hx. apply Hmono. auto. }
  rewrite dfs_unfold in Hrun.
  destruct (decide (node ∈ visited st)) as [|Hnew]; [done|].
  assert (Hnd1 : NoDup (current_path st ++ [node])).
  { apply NoDup_app. split_and!; [done| |apply NoDup_singleton].
    intros x Hx ->%list_elem_of_singleton. auto. }
  destruct (decide (node = target)).
  { inversion Hrun; subst; simpl. eauto. }
  cbv zeta in Hrun.
  destruct (dfs_for _ _ _) as [[[] st2]|] eqn:Hloop; [| |done].
  2:{ by destruct (current_path st2). }
  inversion Hrun; subst.
  destruct (dfs_for_ind (dfs fuel cg target)
             (λ s, (NoDup (current_path s)
                    ∧ (∀ x, x ∈ current_path s → x ∈ visited s))
                   ∧ path s = path st)
             (λ s _ s', ∃ p, path s' = path s ++ p ∧ NoDup p)
             (callees cg node)) with (3 := Hloop)
    as (sk & [_ Hpk] & p & Hp & Hndp).
  - intros c s b s' _ [[Hs1 Hs2] Hs3] Hc.
    pose proof (IH _ _ _ _ Hc Hs1 Hs2) as Hres.
    destruct b; [split; [done|done]|].
    split; [by exists []; rewrite app_nil_r; split; [|apply NoDup_nil_2];
            apply dfs_spec in Hc as [_ ->]|].
    intros _. split; [done|]. apply dfs_spec in Hc as [_ ->]. done.
  - simpl. split; [|done]. split; [done|].
    intros x [Hx|Hx]%elem_of_app; [apply Hin in Hx|]; set_solver.
  - exists p. by rewrite Hp, Hpk.
Qed.

(** X2: the path found never passes through a function twice. *)
Theorem get_call_path_NoDup (cg : call_graph_t) (start target : string) :
  NoDup (get_call_path cg start target).
Proof.
  pose proof (get_call_path_fuel_enough cg start target _ (le_n _)) as Hrun.
  unfold get_call_path_fuel in Hrun.
  destruct (dfs _ _ _ _ _) as [[b st]|] eqn:Hdfs; [|done].
  injection Hrun as Hp. rewrite <-Hp.
  pose proof (dfs_stack_nodup _ _ _ _ _ _ _ Hdfs) as Hres.
  unfold dfs_init in Hres; simpl in Hres.
  destruct b.
  - destruct Hres as (p & -> & Hnd); [apply NoDup_nil_2| |done].
    by intros x Hx%elem_of_nil.
  - apply dfs_spec in Hdfs as [_ ->]. apply NoDup_nil_2.
Qed.

(** ** Transitive closure engine *)

Lemma reachable_from_mono G (A B : list string) f :
  (∀ x, x ∈ A → x ∈ B) → reachable_from G A f → reachable_from G B f.
Proof.
  intros HAB. induction 1 as [f Hf|f g _ IH Hedge].
  - apply reach_seed. auto.
  - by apply reach_call with f.
Qed.

Lemma reachable_from_app G (A B : list string) f :
  reachable_from G (A ++ B) f ↔ reachable_from G A f ∨ reachable_from G B f.
Proof.
  split.
  - induction 1 as [f [Hf|Hf]%elem_of_app|f g _ [IH|IH] Hedge].
    + left. by apply reach_seed.
    + right. by apply reach_seed.
    + left. by apply reach_call with f.
    + right. by apply reach_call with f.
  - intros [H|H]; revert H; apply reachable_from_mono; intros x Hx;
      apply elem_of_app; auto.
Qed.

(** Seeds that already contain all their callees reach nothing else. *)
Lemma reachable_from_closed G (S : list string) f :
  (∀ u v, u ∈ S → v ∈ callees G u → v ∈ S) →
  reachable_from G S f → f ∈ S.
Proof.
  intros Hclosed. induction 1 as [f Hf|f g _ IH Hedge]; [done|].
  by apply Hclosed with f.
Qed.

Lemma size_list_to_set_le (l : list string) :
  size (list_to_set l : gset string) ≤ length l.
Proof.
  induction l as [|x l IH].
  - change (size (∅ : gset string) ≤ 0). by rewrite size_empty.
  - change (size ({[x]} ∪ list_to_set l : gset string) ≤ S (length l)).
    rewrite (size_union_alt ({[x]} : gset string) (list_to_set l)).
    rewrite size_singleton.
    assert (size ((list_to_set l : gset string) ∖ {[x]}) ≤ size (list_to_set l : gset string))
      by (apply subseteq_size; set_solver).
    lia.
Qed.

(** X3: the closure never contains a function that is neither a seed nor a
    recorded callee of the graph; its size is at most the number of seeds
    plus the number of distinct callees. *)
Theorem get_recursive_dependencies_bounded (G : call_graph_t) (S : list string) :
  get_recursive_dependencies G S ⊆ list_to_set S ∪ callee_universe G
  ∧ size (get_recursive_dependencies G S) ≤ length S + size (callee_universe G).
Proof.
  assert (Hsub : get_recursive_dependencies G S
                 ⊆ list_to_set S ∪ callee_universe G).
  { intros f Hf%elem_of_get_recursive_dependencies.
    destruct Hf as [f Hf|f g _ Hedge].
    - apply elem_of_union. left. by apply elem_of_list_to_set.
    - apply elem_of_union. right. by apply callees_in_universe with f. }
  split; [done|].
  apply subseteq_size in Hsub.
  rewrite (size_union_alt (list_to_set S : gset string)) in Hsub.
  pose proof (size_list_to_set_le S).
  assert (size (callee_universe G ∖ list_to_set S) ≤ size (callee_universe G))
    by (apply subseteq_size; set_solver).
  lia.
Qed.

(** X4: the closure of seeds taken together is the union of their
    closures; in particular more seeds never give a smaller closure. *)
Theorem get_recursive_dependencies_app (G : call_graph_t) (S1 S2 : list string) :
  get_recursive_dependencies G (S1 ++ S2)
  = get_recursive_dependencies G S1 ∪ get_recursive_dependencies G S2.
Proof.
  apply set_eq. intros f.
  rewrite elem_of_union, !elem_of_get_recursive_dependencies.
  apply reachable_from_app.
Qed.

(** X5: on seeds that already contain all their callees the closure adds
    nothing. *)
Theorem get_recursive_dependencies_fixpoint (G : call_graph_t) (S : list string) :
  (∀ u v, u ∈ S → v ∈ callees G u → v ∈ S) →
  get_recursive_dependencies G S = list_to_set S.
Proof.
  intros Hclosed. apply set_eq. intros f.
  rewrite elem_of_get_recursive_dependencies, elem_of_list_to_set. split.
  - by apply reachable_from_closed.
  - apply reach_seed.
Qed.

Lemma get_recursive_dependencies_fixpoint_witness :
  get_recursive_dependencies graph_abd ["D"; "Z"] = {["D"; "Z"]}.
Proof.
  rewrite (get_recursive_dependencies_fixpoint graph_abd ["D"; "Z"]).
  - vm_compute. reflexivity.
  - intros u v Hu Hv. exfalso.
    apply elem_of_cons in Hu as [->|Hu];
      [|apply list_elem_of_singleton in Hu as ->];
      vm_compute in Hv; by apply elem_of_nil in Hv.
Defined.

(** X6: closing a closure again changes nothing. *)
Theorem get_recursive_dependencies_idemp (G : call_graph_t) (S : list string) :
  get_recursive_dependencies G (elements (get_recursive_dependencies G S))
  = get_recursive_dependencies G S.
Proof.
  apply set_eq. intros f. rewrite elem_of_get_recursive_dependencies. split.
  - intros Hf. apply elem_of_elements.
    revert Hf. apply reachable_from_closed.
    intros u v Hu%elem_of_elements Hv. apply elem_of_elements.
    apply elem_of_get_recursive_dependencies.
    apply reach_call with u; [|done].
    by apply elem_of_get_recursive_dependencies.
  - intros Hf. apply reach_seed. by apply elem_of_elements.
Qed.

(** ** Intra-function expansion *)

Lemma elem_of_concat (bbs : list (list string)) g :
  g ∈ concat bbs ↔ ∃ bb, bb ∈ bbs ∧ g ∈ bb.
Proof.
  induction bbs as [|bb bbs IH]; simpl.
  - split; [by intros ?%elem_of_nil|]. by intros (bb & ?%elem_of_nil & _).
  - rewrite elem_of_app, IH. split.
    + intros [Hg|(bb' & Hin & Hg)]; [exists bb|exists bb'];
        (split; [|done]); [left|by right].
    + intros (bb' & [->|Hin]%elem_of_cons & Hg); [by left|right; eauto].
Qed.

(** A call edge of the flattened block calls is a callee of some block. *)
Lemma edge_flat_calls (bb_calls : bb_calls_t) f g :
  edge (flat_calls bb_calls) f g
  ↔ ∃ bbs bb, bb_calls !! f = Some bbs ∧ bb ∈ bbs ∧ g ∈ bb.
Proof.
  unfold edge. rewrite callees_flat_calls.
  destruct (bb_calls !! f) as [bbs|]; simpl.
  - rewrite elem_of_concat. naive_solver.
  - split; [by intros ?%elem_of_nil|]. by intros (? & ? & ? & _).
Qed.

(** X7: the expansion returns for every fuel from its bound on; its result
    contains the seeds, contains every callee of every block of each of
    its members, and is the least such set. *)
Theorem expand_by_internal_calls_spec (func_list : list string)
    (bb_calls : bb_calls_t) :
  (∀ fuel, bfs_bound (flat_calls bb_calls) func_list ≤ fuel →
     expand_by_internal_calls_fuel fuel func_list bb_calls
     = Some (expand_by_internal_calls func_list bb_calls))
  ∧ (∀ f, f ∈ func_list → f ∈ expand_by_internal_calls func_list bb_calls)
  ∧ (∀ f bbs bb g,
       f ∈ expand_by_internal_calls func_list bb_calls →
       bb_calls !! f = Some bbs → bb ∈ bbs → g ∈ bb →
       g ∈ expand_by_internal_calls func_list bb_calls)
  ∧ (∀ X : gset string,
       (∀ f, f ∈ func_list → f ∈ X) →
       (∀ f bbs bb g, f ∈ X → bb_calls !! f = Some bbs → bb ∈ bbs → g ∈ bb →
                      g ∈ X) →
       expand_by_internal_calls func_list bb_calls ⊆ X).
Proof.
  split_and!.
  - intros fuel. apply expand_by_internal_calls_fuel_enough.
  - intros f Hf. rewrite expand_by_internal_calls_closure.
    apply elem_of_get_recursive_dependencies. by apply reach_seed.
  - intros f bbs bb g Hf Hbbs Hbb Hg.
    rewrite expand_by_internal_calls_closure in *.
    apply elem_of_get_recursive_dependencies.
    apply reach_call with f; [by apply elem_of_get_recursive_dependencies|].
    apply edge_flat_calls. eauto.
  - intros X Hseeds Hclosed f Hf.
    rewrite expand_by_internal_calls_closure in Hf.
    apply elem_of_get_recursive_dependencies in Hf.
    induction Hf as [f Hf|f g _ IH Hedge]; [auto|].
    apply edge_flat_calls in Hedge as (bbs & bb & Hbbs & Hbb & Hg).
    by apply (Hclosed f bbs bb g).
Qed.

(** X8: when every block callee of a seed is itself a seed (in particular
    when no seed has block information, as with the empty [bb_calls] that
    [main] passes), the expansion is the set of its seeds. *)
Theorem expand_by_internal_calls_identity (func_list : list string)
    (bb_calls : bb_calls_t) :
  (∀ f bbs bb g, f ∈ func_list → bb_calls !! f = Some bbs → bb ∈ bbs →
                 g ∈ bb → g ∈ func_list) →
  expand_by_internal_calls func_list bb_calls = list_to_set func_list.
Proof.
  intros Hclosed. rewrite expand_by_internal_calls_closure.
  apply set_eq. intros f.
  rewrite elem_of_get_recursive_dependencies, elem_of_list_to_set. split.
  - apply reachable_from_closed. intros u v Hu Hv.
    apply edge_flat_calls in Hv as (bbs & bb & Hbbs & Hbb & Hg).
    by apply (Hclosed u bbs bb v).
  - apply reach_seed.
Qed.

Lemma expand_by_internal_calls_identity_witness :
  expand_by_internal_calls ["A"; "B"] ∅ = {["A"; "B"]}.
Proof.
  rewrite (expand_by_internal_calls_identity ["A"; "B"] ∅).
  - vm_compute. reflexivity.
  - intros f bbs bb g _ Hbbs. rewrite lookup_empty in Hbbs. discriminate.
Defined.

(** ** Orchestrator *)

Lemma elem_of_compute_instrumentation_set cg cs bb entry targets f :
  f ∈ compute_instrumentation_set cg cs bb entry targets
  ↔ ∃ t, t ∈ targets ∧ f ∈ combined cg cs bb entry t.
Proof.
  unfold compute_instrumentation_set. rewrite elem_of_accumulate.
  split; [intros [?%not_elem_of_empty|]|]; auto. done.
Qed.

Lemma elem_of_get_preceding_dependent_funcs (cs : call_sites_t) t f :
  f ∈ get_preceding_dependent_funcs cs t
  ↔ ∃ caller infos, cs !! caller = Some infos ∧ site_precedes infos t f.
Proof.
  unfold get_preceding_dependent_funcs. rewrite elem_of_scan_all. split.
  - intros [Hf|([caller infos] & Hin & Hp)]; [set_solver|].
    apply elem_of_map_to_list in Hin. eauto.
  - intros (caller & infos & Hlk & Hp). right.
    exists (caller, infos). split; [by apply elem_of_map_to_list|done].
Qed.

(** X9: the instrumentation set depends only on which functions are
    listed as targets, not on their order or on repetitions in the list. *)
Theorem compute_instrumentation_set_targets_set (cg : call_graph_t)
    (cs : call_sites_t) (bb : bb_calls_t) (entry : string)
    (targets1 targets2 : list string) :
  (∀ t, t ∈ targets1 ↔ t ∈ targets2) →
  compute_instrumentation_set cg cs bb entry targets1
  = compute_instrumentation_set cg cs bb entry targets2.
Proof.
  intros Hsame. apply set_eq. intros f.
  rewrite !elem_of_compute_instrumentation_set.
  split; intros (t & Ht & Hf); exists t; (split; [by apply Hsame|done]).
Qed.

Lemma compute_instrumentation_set_targets_set_witness :
  compute_instrumentation_set graph_abd sites_abcd ∅ "A" ["D"; "C"; "D"]
  = compute_instrumentation_set graph_abd sites_abcd ∅ "A" ["C"; "D"].
Proof.
  apply (compute_instrumentation_set_targets_set
           graph_abd sites_abcd ∅ "A" ["D"; "C"; "D"] ["C"; "D"]).
  intros t. rewrite !elem_of_cons, !elem_of_nil. tauto.
Defined.

(** X10: the set for two target lists taken together is the union of the
    sets for each. *)
Theorem compute_instrumentation_set_app (cg : call_graph_t) (cs : call_sites_t)
    (bb : bb_calls_t) (entry : string) (targets1 targets2 : list string) :
  compute_instrumentation_set cg cs bb entry (targets1 ++ targets2)
  = compute_instrumentation_set cg cs bb entry targets1
    ∪ compute_instrumentation_set cg cs bb entry targets2.
Proof.
  apply set_eq. intros f.
  rewrite elem_of_union, !elem_of_compute_instrumentation_set. split.
  - intros (t & [Ht|Ht]%elem_of_app & Hf); [left|right]; eauto.
  - intros [(t & Ht & Hf)|(t & Ht & Hf)]; exists t;
      (split; [apply elem_of_app; auto|done]).
Qed.

(** X11: with the empty [bb_calls] that [main] passes, a function is
    instrumented exactly when, for some listed target, it lies on the path
    found from the entry to that target or is reachable along call edges
    from a preceding dependency of that target. *)
Theorem compute_instrumentation_set_no_blocks (cg : call_graph_t)
    (cs : call_sites_t) (entry : string) (targets : list string) (f : string) :
  f ∈ compute_instrumentation_set cg cs ∅ entry targets
  ↔ ∃ t, t ∈ targets
         ∧ (f ∈ get_call_path cg entry t
            ∨ reachable_from cg
                (elements (get_preceding_dependent_funcs cs t)) f).
Proof.
  rewrite elem_of_compute_instrumentation_set.
  assert (Hcomb : ∀ t, f ∈ combined cg cs ∅ entry t
            ↔ f ∈ get_call_path cg entry t
              ∨ reachable_from cg
                  (elements (get_preceding_dependent_funcs cs t)) f).
  { intros t. unfold combined.
    rewrite expand_by_internal_calls_empty.
    rewrite !elem_of_union, !elem_of_list_to_set, elem_of_elements.
    rewrite elem_of_get_recursive_dependencies. tauto. }
  split; intros (t & Ht & Hf); exists t; (split; [done|]); by apply Hcomb.
Qed.

Lemma chain_in_universe cg u q x :
  chain cg u q → x ∈ q → x ∈ callee_universe cg.
Proof.
  revert u. induction q as [|v q IH]; intros u Hch Hx;
    [by apply elem_of_nil in Hx|].
  destruct Hch as [He Hch].
  apply elem_of_cons in Hx as [->|Hx]; [by apply callees_in_universe with u|].
  by apply (IH v).
Qed.

(** X12: the instrumentation set never names a function foreign to its
    inputs: each member is the entry function, a recorded callee of the
    call graph, a callee of a recorded call site, or a callee of a
    recorded block. *)
Theorem compute_instrumentation_set_known (cg : call_graph_t)
    (cs : call_sites_t) (bb : bb_calls_t) (entry : string)
    (targets : list string) (f : string) :
  f ∈ compute_instrumentation_set cg cs bb entry targets →
  f = entry
  ∨ f ∈ callee_universe cg
  ∨ (∃ caller infos line, cs !! caller = Some infos ∧ (f, line) ∈ infos)
  ∨ f ∈ callee_universe (flat_calls bb).
Proof.
  intros (t & _ & Hf)%elem_of_compute_instrumentation_set.
  assert (Hdeps : ∀ g,
            g ∈ get_recursive_dependencies cg
                  (elements (get_preceding_dependent_funcs cs t)) →
            g ∈ callee_universe cg
            ∨ ∃ caller infos line, cs !! caller = Some infos ∧ (g, line) ∈ infos).
  { intros g Hg%elem_of_get_recursive_dependencies.
    destruct Hg as [g Hg|h g _ Hedge].
    - right. apply elem_of_elements, elem_of_get_preceding_dependent_funcs in Hg
        as (caller & infos & Hlk & line & _ & Hin & _). eauto.
    - left. by apply callees_in_universe with h. }
  unfold combined in Hf.
  apply elem_of_union in Hf as [[Hf|Hf]%elem_of_union|Hf].
  - apply elem_of_list_to_set in Hf.
    destruct (get_call_path_cases cg entry t) as [Hnil|(q & Hq & _ & Hch)].
    + rewrite Hnil in Hf. by apply elem_of_nil in Hf.
    + rewrite Hq in Hf. apply elem_of_cons in Hf as [->|Hf]; [by left|].
      right; left. by apply chain_in_universe with entry q.
  - destruct (Hdeps f Hf) as [?|?]; auto.
  - rewrite expand_by_internal_calls_closure in Hf.
    apply elem_of_get_recursive_dependencies in Hf.
    destruct Hf as [f Hf|h f _ Hedge].
    + apply elem_of_elements in Hf. destruct (Hdeps f Hf) as [?|?]; auto.
    + do 3 right. by apply callees_in_universe with h.
Qed.

Lemma compute_instrumentation_set_known_witness :
  "B" = "A"
  ∨ "B" ∈ callee_universe graph_abd
  ∨ (∃ caller infos line,
       sites_abcd !! caller = Some infos ∧ ("B", line) ∈ infos)
  ∨ "B" ∈ callee_universe (flat_calls ∅).
Proof.
  apply (compute_instrumentation_set_known graph_abd sites_abcd ∅ "A" ["D"]).
  vm_compute. reflexivity.
Defined.

(** ** Call graph model *)

Lemma contains_app c (a b : string) :
  contains c (String.append a b) = contains c a || contains c b.
Proof.
  induction a as [|x a IH]; simpl; [done|]. by destruct (decide (x = c)).
Qed.

Lemma contains_cons_eq c s : contains c (String c s) = true.
Proof. simpl. by rewrite decide_True. Qed.

Lemma contains_cons_ne c x s : x ≠ c → contains c (String x s) = contains c s.
Proof. intros Hne. simpl. by rewrite decide_False. Qed.

Lemma split_on_nonempty sep s : split_on sep s ≠ [].
Proof.
  destruct s as [|a s]; simpl; [done|].
  destruct (decide (a = sep)); [done|]. by destruct (split_on sep s).
Qed.

(** A string splits into one part exactly when it has no separator. *)
Lemma split_on_one sep s b :
  split_on sep s = [b] ↔ contains sep b = false ∧ s = b.
Proof.
  revert b. induction s as [|a s IH]; intros b; simpl.
  - split; [by intros [= <-]|by intros [_ <-]].
  - destruct (decide (a = sep)) as [->|Hne].
    + split.
      * intros [= <- Hnil]. by apply split_on_nonempty in Hnil.
      * intros [Hb <-]. simpl in Hb. by rewrite decide_True in Hb.
    + destruct (split_on sep s) as [|part parts] eqn:Hs;
        [by apply split_on_nonempty in Hs|].
      split.
      * intros [= <- ->]. destruct (IH part) as [[Hp ->] _]; [done|].
        simpl. by rewrite decide_False.
      * intros [Hb <-]. simpl in Hb. rewrite decide_False in Hb by done.
        destruct (IH s) as [_ Hone].
        by injection (Hone (conj Hb eq_refl)) as -> ->.
Qed.

(** A string splits into two parts exactly when it is the two parts, free
    of the separator, with one separator between them. *)
Lemma split_on_two sep s a b :
  split_on sep s = [a; b]
  ↔ contains sep a = false ∧ contains sep b = false
    ∧ s = String.append a (String sep b).
Proof.
  revert a. induction s as [|x s IH]; intros a; simpl.
  - split; [done|]. intros (_ & _ & Hs). by destruct a.
  - destruct (decide (x = sep)) as [->|Hne].
    + split.
      * intros [= <- Hb]. apply split_on_one in Hb as [Hb ->]. done.
      * intros (Ha & Hb & Hs). destruct a as [|y a]; simpl in *.
        -- injection Hs as ->. f_equal. by apply split_on_one.
        -- injection Hs as <- _. by rewrite decide_True in Ha.
    + destruct (split_on sep s) as [|part parts] eqn:Hs;
        [by apply split_on_nonempty in Hs|].
      split.
      * intros [= <- ->]. destruct (IH part) as [(Hp & Hb & ->) _]; [done|].
        simpl. by rewrite decide_False.
      * intros (Ha & Hb & Heq). destruct a as [|y a]; simpl in *.
        -- by injection Heq as -> _.
        -- injection Heq as <- ->. rewrite decide_False in Ha by done.
           destruct (IH a) as [_ Htwo].
           by injection (Htwo (conj Ha (conj Hb eq_refl))) as -> ->.
Qed.

Lemma unpack2_Some parts a b : unpack2 parts = Some (a, b) ↔ parts = [a; b].
Proof.
  destruct parts as [|x [|y [|z parts]]]; simpl; split; try done;
    by intros [= -> ->].
Qed.

Lemma dd_append_fmap {A B} (g : A → B) (d : gmap string (list A)) caller x :
  fmap (M:=list) g <$> dd_append d caller x
  = dd_append (fmap (M:=list) g <$> d) caller (g x).
Proof.
  unfold dd_append. rewrite fmap_insert, lookup_fmap.
  destruct (d !! caller); simpl; by rewrite ?fmap_app.
Qed.

Lemma dd_append_not_nil {A} (d : gmap string (list A)) caller x c l :
  (∀ c' l', d !! c' = Some l' → l' ≠ []) →
  dd_append d caller x !! c = Some l → l ≠ [].
Proof.
  intros Hd. unfold dd_append. destruct (decide (caller = c)) as [->|Hne].
  - rewrite lookup_insert_eq. intros [= <-]. by destruct (default [] (d !! c)).
  - rewrite lookup_insert_ne by done. apply Hd.
Qed.

Lemma build_invariants records (gs : call_graph_t * call_sites_t) :
  gs.1 = fmap (M:=list) fst <$> gs.2 →
  (∀ c l, gs.1 !! c = Some l → l ≠ []) →
  (foldl add_record gs records).1
  = fmap (M:=list) fst <$> (foldl add_record gs records).2
  ∧ (∀ c l, (foldl add_record gs records).1 !! c = Some l → l ≠ []).
Proof.
  revert gs. induction records as [|r records IH]; intros gs Hfst Hne; [done|].
  simpl. apply IH; simpl.
  - by rewrite dd_append_fmap, Hfst.
  - intros c l. by apply dd_append_not_nil.
Qed.

Section parser_more.
Context `{!PyBuiltins}.

(** The lines the loop accepts are those of the textual form, and the
    record is the one they spell. *)
Lemma parse_line_Parsed_reads_as (raw caller callee : string) (n : Z) :
  parse_line raw = Parsed caller callee n ↔ reads_as raw caller callee n.
Proof.
  unfold reads_as, parse_line, try_parse. cbv zeta. split.
  - destruct (decide (py_strip raw = EmptyString)); [done|].
    destruct (negb (contains "," (py_strip raw))); [done|].
    destruct (negb (contains ":" (py_strip raw))); [done|].
    destruct (unpack2 (split_on "," (py_strip raw))) as [[c part]|] eqn:H1;
      [|done]. simpl.
    destruct (unpack2 (split_on ":" part)) as [[ce field]|] eqn:H2; [|done].
    simpl. destruct (py_int field) as [m|] eqn:Hint; [|done]. simpl.
    intros [= -> -> ->].
    apply unpack2_Some, split_on_two in H1 as (Hc & Hpart & Hline).
    apply unpack2_Some, split_on_two in H2 as (Hce & Hfield & ->).
    rewrite contains_app, contains_cons_ne in Hpart by done.
    apply orb_false_iff in Hpart as [Hce' Hfield'].
    exists field. by split_and!.
  - intros (field & Hline & Hc & Hce & Hce' & Hf & Hf' & Hint).
    assert (H2 : split_on ":" (String.append callee (String ":" field))
                 = [callee; field]) by by apply split_on_two.
    assert (H1 : split_on "," (py_strip raw)
                 = [caller; String.append callee (String ":" field)]).
    { apply split_on_two. split_and!; [done| |done].
      rewrite contains_app, contains_cons_ne by done.
      by rewrite Hce, Hf. }
    assert (Hcomma : contains "," (py_strip raw) = true).
    { rewrite Hline, contains_app, contains_cons_eq. apply orb_true_r. }
    assert (Hcolon : contains ":" (py_strip raw) = true).
    { rewrite Hline, contains_app, contains_cons_ne by done.
      rewrite contains_app, contains_cons_eq.
      rewrite orb_true_r. apply orb_true_r. }
    destruct (decide (py_strip raw = EmptyString)) as [Hempty|_].
    { rewrite Hempty in Hcomma. done. }
    rewrite Hcomma, Hcolon, H1. simpl. rewrite H2. simpl. by rewrite Hint.
Qed.

Lemma well_formed_reads_as (raw : string) :
  well_formed raw = true ↔ ∃ caller callee n, reads_as raw caller callee n.
Proof.
  unfold well_formed. split.
  - destruct (parse_line raw) as [| |caller callee n] eqn:Hp; [done|done|].
    intros _. exists caller, callee, n. by apply parse_line_Parsed_reads_as.
  - intros (caller & callee & n & Hr).
    apply parse_line_Parsed_reads_as in Hr. by rewrite Hr.
Qed.

(** An accepted line adds its callee, and its call site, at its place in
    the lists of its caller and touches no other caller. *)
Lemma parse_call_graph_file_accepted before raw after caller callee n c :
  parse_line raw = Parsed caller callee n →
  callees (parse_call_graph_file (before ++ raw :: after)).1 c
  = callees (parse_call_graph_file before).1 c
    ++ (if decide (caller = c) then [callee] else [])
    ++ callees (parse_call_graph_file after).1 c
  ∧ default [] ((parse_call_graph_file (before ++ raw :: after)).2 !! c)
    = default [] ((parse_call_graph_file before).2 !! c)
      ++ (if decide (caller = c) then [(callee, n)] else [])
      ++ default [] ((parse_call_graph_file after).2 !! c).
Proof.
  intros Hp.
  assert (Hrec : edge_records (before ++ raw :: after)
                 = edge_records before
                   ++ (caller, callee, n) :: edge_records after).
  { rewrite edge_records_app. f_equal. unfold edge_records. simpl.
    by rewrite Hp. }
  rewrite !parse_call_graph_file_build, Hrec.
  unfold build_from_records, callees.
  destruct (build_lookup (edge_records before
                          ++ (caller, callee, n) :: edge_records after)
              (∅, ∅) c) as [-> ->].
  destruct (build_lookup (edge_records before) (∅, ∅) c) as [-> ->].
  destruct (build_lookup (edge_records after) (∅, ∅) c) as [-> ->].
  cbn [fst snd]. rewrite !lookup_empty. cbn [default app].
  rewrite filter_app, filter_cons. cbn [fst snd].
  destruct (decide (caller = c)); by rewrite !fmap_app.
Qed.

(** X13: a line yields the record [(caller, callee, n)] exactly when,
    stripped, it reads [caller,callee:field] with no comma in any of the
    three parts, no colon in [callee] or [field], and [int(field) = n];
    the caller may contain colons. *)
Theorem parse_line_Parsed_iff (raw caller callee : string) (n : Z) :
  parse_line raw = Parsed caller callee n
  ↔ ∃ field,
      py_strip raw
      = String.append caller
          (String "," (String.append callee (String ":" field)))
      ∧ contains "," caller = false
      ∧ contains "," callee = false ∧ contains ":" callee = false
      ∧ contains "," field = false ∧ contains ":" field = false
      ∧ py_int field = Some n.
Proof. apply parse_line_Parsed_reads_as. Qed.

(** C9: a line without [,] or without [:], or whose line-number field is
    not an integer, is skipped; a line of the form [caller,callee:line] is
    accepted and adds its callee and call site at its place in the lists of
    its caller; the dictionaries returned are those built from the accepted
    lines alone, in file order, so a malformed line anywhere in the file
    changes nothing of what the lines around it contribute. *)
Theorem parse_call_graph_file_skips_malformed (lines : list string) :
  (∀ raw, contains "," (py_strip raw) = false
          ∨ contains ":" (py_strip raw) = false →
          well_formed raw = false)
  ∧ (∀ raw caller callee_part callee field,
       unpack2 (split_on "," (py_strip raw)) = Some (caller, callee_part) →
       unpack2 (split_on ":" callee_part) = Some (callee, field) →
       py_int field = None → well_formed raw = false)
  ∧ parse_call_graph_file lines
    = parse_call_graph_file (filter (λ raw, well_formed raw = true) lines)
  ∧ parse_call_graph_file lines = build_from_records (edge_records lines)
  ∧ (∀ before bad after,
       lines = before ++ bad :: after → well_formed bad = false →
       parse_call_graph_file lines = parse_call_graph_file (before ++ after))
  ∧ (∀ caller,
       callees (parse_call_graph_file lines).1 caller
       = (λ r, r.1.2) <$> filter (λ r, r.1.1 = caller) (edge_records lines))
  ∧ (∀ caller,
       default [] ((parse_call_graph_file lines).2 !! caller)
       = (λ r, (r.1.2, r.2))
           <$> filter (λ r, r.1.1 = caller) (edge_records lines))
  ∧ (∀ raw caller callee n,
       parse_line raw = Parsed caller callee n ↔ reads_as raw caller callee n)
  ∧ (∀ raw, well_formed raw = true
            ↔ ∃ caller callee n, reads_as raw caller callee n)
  ∧ (∀ before raw after caller callee n,
       lines = before ++ raw :: after → reads_as raw caller callee n →
       ∀ c,
         callees (parse_call_graph_file lines).1 c
         = callees (parse_call_graph_file before).1 c
           ++ (if decide (caller = c) then [callee] else [])
           ++ callees (parse_call_graph_file after).1 c
         ∧ default [] ((parse_call_graph_file lines).2 !! c)
           = default [] ((parse_call_graph_file before).2 !! c)
             ++ (if decide (caller = c) then [(callee, n)] else [])
             ++ default [] ((parse_call_graph_file after).2 !! c)).
Proof.
  split_and!.
  - intros raw Hsep. unfold well_formed, parse_line. cbv zeta.
    destruct (decide (py_strip raw = EmptyString)); [done|].
    destruct Hsep as [-> | ->]; simpl; [done|].
    by destruct (contains "," (py_strip raw)).
  - intros raw caller callee_part callee field H1 H2 Hint.
    unfold well_formed, parse_line, try_parse. cbv zeta.
    destruct (decide (py_strip raw = EmptyString)); [done|].
    destruct (negb (contains "," (py_strip raw))); [done|].
    destruct (negb (contains ":" (py_strip raw))); [done|].
    rewrite H1. simpl. rewrite H2. simpl. by rewrite Hint.
  - by rewrite !parse_call_graph_file_build, edge_records_filter.
  - apply parse_call_graph_file_build.
  - intros before bad after -> Hbad.
    rewrite !parse_call_graph_file_build, !edge_records_app.
    by rewrite edge_records_skip.
  - intros caller. rewrite parse_call_graph_file_build.
    unfold build_from_records, callees.
    by destruct (build_lookup (edge_records lines) (∅, ∅) caller) as [-> _].
  - intros caller. rewrite parse_call_graph_file_build.
    unfold build_from_records.
    by destruct (build_lookup (edge_records lines) (∅, ∅) caller) as [_ ->].
  - apply parse_line_Parsed_reads_as.
  - apply well_formed_reads_as.
  - intros before raw after caller callee n -> Hr c.
    apply parse_call_graph_file_accepted.
    by apply parse_line_Parsed_reads_as.
Qed.

(** X14: the call graph returned is the call-site map with the line
    numbers dropped, and neither dictionary maps a caller to an empty
    list. *)
Theorem parse_call_graph_file_consistent (lines : list string) :
  (parse_call_graph_file lines).1
  = fmap (M:=list) fst <$> (parse_call_graph_file lines).2
  ∧ (∀ caller l, (parse_call_graph_file lines).1 !! caller = Some l → l ≠ [])
  ∧ (∀ caller l, (parse_call_graph_file lines).2 !! caller = Some l → l ≠ []).
Proof.
  rewrite parse_call_graph_file_build. unfold build_from_records.
  destruct (build_invariants (edge_records lines) (∅, ∅)) as [Hfst Hne].
  { simpl. by rewrite fmap_empty. }
  { intros c l. simpl. by rewrite lookup_empty. }
  split_and!; [done|done|].
  intros caller l Hl. specialize (Hne caller (l.*1)).
  rewrite Hfst, lookup_fmap, Hl in Hne. simpl in Hne.
  intros ->. by apply Hne.
Qed.

Lemma parsed_edge_iff (lines : list string) u v :
  v ∈ callees (parse_call_graph_file lines).1 u
  ↔ ∃ n, (u, v, n) ∈ edge_records lines.
Proof.
  rewrite parse_call_graph_file_build. unfold build_from_records, callees.
  destruct (build_lookup (edge_records lines) (∅, ∅) u) as [-> _].
  cbn [fst]. rewrite lookup_empty. cbn [default app].
  rewrite list_elem_of_fmap. split.
  - intros ([[c ce] n] & -> & [Hc Hin]%list_elem_of_filter).
    simpl in *. subst. eauto.
  - intros (n & Hin). exists (u, v, n). split; [done|].
    by apply list_elem_of_filter.
Qed.

Lemma parsed_site_iff (lines : list string) u v n :
  (v, n) ∈ default [] ((parse_call_graph_file lines).2 !! u)
  ↔ (u, v, n) ∈ edge_records lines.
Proof.
  rewrite parse_call_graph_file_build. unfold build_from_records.
  destruct (build_lookup (edge_records lines) (∅, ∅) u) as [_ ->].
  cbn [snd]. rewrite lookup_empty. cbn [default app].
  rewrite list_elem_of_fmap. split.
  - intros ([[c ce] m] & [= -> ->] & [Hc Hin]%list_elem_of_filter).
    simpl in *. by subst.
  - intros Hin. exists (u, v, n). split; [done|].
    by apply list_elem_of_filter.
Qed.

(** X15: a function is a key of the returned call graph exactly when some
    well-formed line names it as caller, and the graph has the edge
    [u -> v] exactly when some well-formed line reads [u,v:n]. *)
Theorem parse_call_graph_file_edges (lines : list string) :
  (∀ caller, is_Some ((parse_call_graph_file lines).1 !! caller)
             ↔ ∃ callee n, (caller, callee, n) ∈ edge_records lines)
  ∧ (∀ u v, v ∈ callees (parse_call_graph_file lines).1 u
            ↔ ∃ n, (u, v, n) ∈ edge_records lines)
  ∧ (∀ u v n, (v, n) ∈ default [] ((parse_call_graph_file lines).2 !! u)
              ↔ (u, v, n) ∈ edge_records lines).
Proof.
  split_and!; [|apply parsed_edge_iff|apply parsed_site_iff].
  intros caller. split.
  - intros [l Hl].
    assert (Hne : l ≠ []).
    { pose proof (build_invariants (edge_records lines) (∅, ∅)) as Hinv.
      rewrite parse_call_graph_file_build in Hl.
      destruct Hinv as [_ Hne]; [by simpl; rewrite fmap_empty| |by eapply Hne].
      intros c l'. simpl. by rewrite lookup_empty. }
    destruct l as [|v l]; [done|].
    destruct (parsed_edge_iff lines caller v) as [(n & Hin) _]; [|eauto].
    unfold callees. rewrite Hl. left.
  - intros (callee & n & Hin).
    destruct (parsed_edge_iff lines caller callee) as [_ Hback].
    specialize (Hback (ex_intro _ n Hin)). unfold callees in Hback.
    destruct (_ !! caller); [eauto|]. by apply elem_of_nil in Hback.
Qed.

(** X16: parsing two files one after the other as one file gives, for
    every caller, the callees and the call sites of the first followed by
    those of the second. *)
Theorem parse_call_graph_file_app (lines1 lines2 : list string)
    (caller : string) :
  callees (parse_call_graph_file (lines1 ++ lines2)).1 caller
  = callees (parse_call_graph_file lines1).1 caller
    ++ callees (parse_call_graph_file lines2).1 caller
  ∧ default [] ((parse_call_graph_file (lines1 ++ lines2)).2 !! caller)
    = default [] ((parse_call_graph_file lines1).2 !! caller)
      ++ default [] ((parse_call_graph_file lines2).2 !! caller).
Proof.
  rewrite !parse_call_graph_file_build, edge_records_app.
  unfold build_from_records, callees.
  destruct (build_lookup (edge_records lines1 ++ edge_records lines2)
              (∅, ∅) caller) as [-> ->].
  destruct (build_lookup (edge_records lines1) (∅, ∅) caller) as [-> ->].
  destruct (build_lookup (edge_records lines2) (∅, ∅) caller) as [-> ->].
  cbn [fst snd]. rewrite !lookup_empty. cbn [default app].
  by rewrite filter_app, !fmap_app.
Qed.

(** X17: a diagnostic is printed exactly for the lines that, stripped,
    hold both a comma and a colon and still are not well formed, in file
    order; blank lines and lines lacking a separator are dropped without
    a message. *)
Theorem parse_lines_printed (lines : list string) :
  st_printed (parse_lines lines)
  = (λ raw, String.append "Skipping malformed line: " (py_strip raw))
      <$> filter (λ raw, contains "," (py_strip raw)
                         && contains ":" (py_strip raw)
                         && negb (well_formed raw) = true) lines.
Proof.
  unfold parse_lines.
  assert (Hgen : ∀ st,
    st_printed (foldl parse_step st lines)
    = st_printed st
      ++ ((λ raw, String.append "Skipping malformed line: " (py_strip raw))
            <$> filter (λ raw, contains "," (py_strip raw)
                               && contains ":" (py_strip raw)
                               && negb (well_formed raw) = true) lines)).
  { induction lines as [|raw lines IH]; intros st; simpl.
    - by rewrite app_nil_r.
    - rewrite IH, filter_cons. unfold parse_step, well_formed, parse_line.
      cbv zeta.
      destruct (decide (py_strip raw = EmptyString)) as [Hempty|_].
      { rewrite Hempty. simpl. done. }
      destruct (contains "," (py_strip raw)); simpl; [|done].
      destruct (contains ":" (py_strip raw)); simpl; [|done].
      destruct (try_parse (py_strip raw)) as [[[c ce] n]|]; simpl; [done|].
      by rewrite <-app_assoc. }
  by rewrite Hgen.
Qed.
End parser_more.

Lemma parse_call_graph_file_skips_malformed_witness :
  @well_formed ascii_builtins "foo-bar" = false
  ∧ @well_formed ascii_builtins "A,C:x" = false
  ∧ @parse_call_graph_file ascii_builtins file_with_noise
    = @parse_call_graph_file ascii_builtins ["A,B:1"; " B,D:7 "; "A,C:2"]
  ∧ @parse_line ascii_builtins " B,D:7 " = Parsed "B" "D" 7
  ∧ callees (@parse_call_graph_file ascii_builtins file_with_noise).1 "A"
    = callees (@parse_call_graph_file ascii_builtins
                 ["A,B:1"; "foo-bar"; ""; "A,C:x"; "A,B,C:2"; " B,D:7 "]).1 "A"
      ++ ["C"] ++ callees (@parse_call_graph_file ascii_builtins []).1 "A".
Proof.
  destruct (@parse_call_graph_file_skips_malformed ascii_builtins file_with_noise)
    as (Hsep & Hint & Hfilter & _ & _ & _ & _ & Hform & _ & Hplace).
  split_and!.
  - apply Hsep. left. reflexivity.
  - apply (Hint "A,C:x" "A" "C:x" "C" "x"); reflexivity.
  - exact Hfilter.
  - apply Hform. exists "7". repeat split.
  - destruct (Hplace ["A,B:1"; "foo-bar"; ""; "A,C:x"; "A,B,C:2"; " B,D:7 "]
                "A,C:2" [] "A" "C" 2%Z) with (c := "A") as [Hg _];
      [reflexivity|exists "2"; repeat split|].
    exact Hg.
Defined.

(** ** Input readers and the command line *)

Lemma ascii_compare_refl c : Ascii.compare c c = Eq.
Proof. unfold Ascii.compare. apply N.compare_refl. Qed.

Lemma string_compare_trans s1 s2 s3 :
  String.compare s1 s2 ≠ Gt → String.compare s2 s3 ≠ Gt →
  String.compare s1 s3 ≠ Gt.
Proof.
  revert s2 s3. induction s1 as [|c1 s1 IH]; intros [|c2 s2] [|c3 s3];
    simpl; try done.
  destruct (Ascii.compare c1 c2) eqn:H12; [| |done];
    destruct (Ascii.compare c2 c3) eqn:H23; try done.
  - apply Ascii.compare_eq_iff in H12 as ->.
    apply Ascii.compare_eq_iff in H23 as ->.
    rewrite ascii_compare_refl. apply IH.
  - apply Ascii.compare_eq_iff in H12 as ->. by rewrite H23.
  - apply Ascii.compare_eq_iff in H23 as <-. by rewrite H12.
  - unfold Ascii.compare in *.
    apply N.compare_lt_iff in H12. apply N.compare_lt_iff in H23.
    pose proof (N.lt_trans _ _ _ H12 H23) as H13.
    apply N.compare_lt_iff in H13. by rewrite H13.
Qed.

#[global] Instance string_le_trans : Transitive string_le.
Proof.
  intros a b c. unfold string_le, String.leb. intros Hab Hbc.
  pose proof (string_compare_trans a b c) as Htr.
  destruct (String.compare a b); [| |done];
    destruct (String.compare b c); try done;
    destruct (String.compare a c); try done; by exfalso; apply Htr.
Qed.

#[global] Instance string_le_total : Total string_le.
Proof. intros a b. apply String.leb_total. Qed.

#[global] Instance string_le_antisym : AntiSymm eq string_le.
Proof. intros a b. apply String.leb_antisym. Qed.


Section main_facts.
Context `{!PyBuiltins}.

Lemma combined_run_spec frames cg cs bb entry t :
  combined_run frames cg cs bb entry t
  = (λ _, combined cg cs bb entry t) <$> get_call_path_fuel frames cg entry t.
Proof.
  unfold combined_run.
  destruct (get_call_path_fuel frames cg entry t) as [p|] eqn:Hrun; [|done].
  apply get_call_path_fuel_Some in Hrun as ->. done.
Qed.

(** The loop under a frame budget ends with the set of the unlimited run
    when every search returns, and with the exception otherwise. *)
Lemma compute_instrumentation_set_run_spec frames cg cs bb entry targets :
  compute_instrumentation_set_run frames cg cs bb entry targets
  = if decide (Forall (λ t, is_Some (get_call_path_fuel frames cg entry t))
                      targets)
    then Some (compute_instrumentation_set cg cs bb entry targets)
    else None.
Proof.
  unfold compute_instrumentation_set_run, compute_instrumentation_set.
  generalize (∅ : gset string) as acc.
  induction targets as [|t targets IH]; intros acc.
  - destruct (decide (Forall _ [])) as [|Hnot]; [done|].
    destruct Hnot. constructor.
  - cbn [foldl]. rewrite combined_run_spec.
    destruct (get_call_path_fuel frames cg entry t) as [p|] eqn:Hrun;
      cbn [fmap option_fmap option_map mbind option_bind].
    + rewrite IH. destruct (decide (Forall _ targets)) as [Hall|Hnot].
      * rewrite decide_True; [done|]. constructor; [by rewrite Hrun|done].
      * rewrite decide_False; [done|]. by intros Hall%Forall_inv_tail.
    + rewrite decide_False.
      * clear IH. induction targets as [|t' targets IH']; [done|]. apply IH'.
      * intros Hall%Forall_inv. rewrite Hrun in Hall. by destruct Hall.
Qed.

(** With enough frames for the graph parsed, the run under the limit is
    the run [main]. *)
Lemma main_run_enough frames argv (dir : gmap string (list string)) :
  (∀ graph_lines, dir !! call_graph_file = Some graph_lines →
     dfs_bound (parse_call_graph_file graph_lines).1 ≤ frames) →
  main_run frames argv dir = Ended (main argv dir).
Proof.
  intros Hbound. destruct argv as [|a0 [|a1 [|a2 argv]]]; try done.
  unfold main_run, main.
  destruct (dir !! entry_func_file) as [e|]; [|done].
  destruct (dir !! call_graph_file) as [g|] eqn:Hg; [|done].
  destruct (dir !! target_func_file) as [t|]; [|done]. cbv zeta.
  rewrite compute_instrumentation_set_run_spec, decide_True; [done|].
  apply Forall_forall. intros x _.
  rewrite get_call_path_fuel_enough; [eauto|]. by apply (Hbound g).
Qed.

End main_facts.

Section pipeline_facts.
Context `{!PyBuiltins}.

(** X21: when the target file holds blank lines only (or nothing), the run
    still succeeds and writes an empty output file. *)
Theorem main_no_targets (argv : list string) (dir : gmap string (list string))
    (entry_lines graph_lines target_lines : list string) :
  length argv = 2 →
  dir !! entry_func_file = Some entry_lines →
  dir !! call_graph_file = Some graph_lines →
  dir !! target_func_file = Some target_lines →
  (∀ line, line ∈ target_lines → py_strip line = EmptyString) →
  main argv dir
  = Written (<[output_file := []]> dir) (st_printed (parse_lines graph_lines)).
Proof.
  intros Hargv He Hg Ht Hblank.
  destruct argv as [|a0 [|a1 [|a2 argv]]]; try done.
  unfold main. rewrite He, Hg, Ht. cbv zeta.
  assert (Hnone : ∀ ls, (∀ line, line ∈ ls → py_strip line = EmptyString) →
            read_target_func_file ls = []).
  { unfold read_target_func_file.
    induction ls as [|line ls IH]; intros Hls; [done|].
    rewrite filter_cons, decide_False; [|intros Hne; apply Hne, Hls; left].
    apply IH. intros l Hl. apply Hls. by right. }
  rewrite (Hnone _ Hblank). unfold compute_instrumentation_set. simpl.
  by rewrite elements_empty.
Qed.

(** X22: the content of the output file is decided by the well-formed
    edge lines, the entry function and the set of targets: two runs whose
    call-graph files hold the same edge records, whose entry files start
    with the same function and whose target files name the same functions
    write the same lines, whatever malformed or blank lines, repetitions
    or target order distinguish the inputs. *)
Theorem main_same_output (argv argv' : list string)
    (dir dir' : gmap string (list string))
    (entry_lines graph_lines target_lines : list string)
    (entry_lines' graph_lines' target_lines' : list string) :
  length argv = 2 → length argv' = 2 →
  dir !! entry_func_file = Some entry_lines →
  dir !! call_graph_file = Some graph_lines →
  dir !! target_func_file = Some target_lines →
  dir' !! entry_func_file = Some entry_lines' →
  dir' !! call_graph_file = Some graph_lines' →
  dir' !! target_func_file = Some target_lines' →
  edge_records graph_lines = edge_records graph_lines' →
  read_entry_func entry_lines = read_entry_func entry_lines' →
  (∀ t, t ∈ read_target_func_file target_lines
        ↔ t ∈ read_target_func_file target_lines') →
  ∃ content,
    main argv dir
    = Written (<[output_file := content]> dir)
              (st_printed (parse_lines graph_lines))
    ∧ main argv' dir'
      = Written (<[output_file := content]> dir')
                (st_printed (parse_lines graph_lines')).
Proof.
  intros Hargv Hargv' He Hg Ht He' Hg' Ht' Hrec Hentry Htargets.
  destruct argv as [|a0 [|a1 [|a2 argv]]]; try done.
  destruct argv' as [|b0 [|b1 [|b2 argv']]]; try done.
  unfold main. rewrite He, Hg, Ht, He', Hg', Ht'. cbv zeta.
  eexists. split; [reflexivity|].
  change (st_call_graph (parse_lines graph_lines'))
    with (parse_call_graph_file graph_lines').1.
  change (st_call_sites (parse_lines graph_lines'))
    with (parse_call_graph_file graph_lines').2.
  change (st_call_graph (parse_lines graph_lines))
    with (parse_call_graph_file graph_lines).1.
  change (st_call_sites (parse_lines graph_lines))
    with (parse_call_graph_file graph_lines).2.
  rewrite !parse_call_graph_file_build, <-Hrec, <-Hentry.
  set (gs := build_from_records (edge_records graph_lines)).
  assert (Hset : compute_instrumentation_set gs.1 gs.2 ∅
                   (read_entry_func entry_lines)
                   (read_target_func_file target_lines')
                 = compute_instrumentation_set gs.1 gs.2 ∅
                     (read_entry_func entry_lines)
                     (read_target_func_file target_lines)).
  { apply set_eq. intros f. rewrite !elem_of_compute_instrumentation_set.
    split; intros (t & Hin & Hf); exists t; (split; [by apply Htargets|done]). }
  by rewrite Hset.
Qed.

(** X23: on the call sites parsed from a file, [f] is a preceding
    dependency of [t] exactly when two well-formed lines of one caller
    read [caller,f:l1] and [caller,t:l2] with [f] other than [t] and
    [l1 < l2]. *)
Theorem parsed_preceding_dependent_funcs (lines : list string) (t f : string) :
  f ∈ get_preceding_dependent_funcs (parse_call_graph_file lines).2 t
  ↔ ∃ caller (l1 l2 : Z),
      (caller, f, l1) ∈ edge_records lines
      ∧ (caller, t, l2) ∈ edge_records lines
      ∧ f ≠ t ∧ (l1 < l2)%Z.
Proof.
  rewrite elem_of_get_preceding_dependent_funcs. split.
  - intros (caller & infos & Hlk & l1 & l2 & Hf & Hne & Ht & Hlt).
    exists caller, l1, l2.
    rewrite <-!parsed_site_iff, Hlk. by split_and!.
  - intros (caller & l1 & l2 & Hf & Ht & Hne & Hlt).
    apply parsed_site_iff in Hf, Ht.
    destruct ((parse_call_graph_file lines).2 !! caller) as [infos|] eqn:Hlk;
      [|by apply elem_of_nil in Hf].
    exists caller, infos. split; [done|]. by exists l1, l2.
Qed.

(** The two properties above hold of the run under any recursion limit:
    with no target there is no path search at all, and two runs that
    agree on records, entry and targets search the same paths, so they
    write the same lines or raise alike. *)
Lemma main_run_no_targets frames (argv : list string)
    (dir : gmap string (list string))
    (entry_lines graph_lines target_lines : list string) :
  length argv = 2 →
  dir !! entry_func_file = Some entry_lines →
  dir !! call_graph_file = Some graph_lines →
  dir !! target_func_file = Some target_lines →
  (∀ line, line ∈ target_lines → py_strip line = EmptyString) →
  main_run frames argv dir = Ended (main argv dir).
Proof.
  intros Hargv He Hg Ht Hblank.
  destruct argv as [|a0 [|a1 [|a2 argv]]]; try done.
  unfold main_run, main. rewrite He, Hg, Ht. cbv zeta.
  assert (Hnone : read_target_func_file target_lines = []).
  { unfold read_target_func_file. clear Ht.
    induction target_lines as [|line ls IH]; [done|].
    rewrite filter_cons, decide_False; [|intros Hne; apply Hne, Hblank; left].
    apply IH. intros l Hl. apply Hblank. by right. }
  by rewrite Hnone.
Qed.

Lemma main_run_same_output frames (argv argv' : list string)
    (dir dir' : gmap string (list string))
    (entry_lines graph_lines target_lines : list string)
    (entry_lines' graph_lines' target_lines' : list string) :
  length argv = 2 → length argv' = 2 →
  dir !! entry_func_file = Some entry_lines →
  dir !! call_graph_file = Some graph_lines →
  dir !! target_func_file = Some target_lines →
  dir' !! entry_func_file = Some entry_lines' →
  dir' !! call_graph_file = Some graph_lines' →
  dir' !! target_func_file = Some target_lines' →
  edge_records graph_lines = edge_records graph_lines' →
  read_entry_func entry_lines = read_entry_func entry_lines' →
  (∀ t, t ∈ read_target_func_file target_lines
        ↔ t ∈ read_target_func_file target_lines') →
  (main_run frames argv dir = Ended (main argv dir)
   ∧ main_run frames argv' dir' = Ended (main argv' dir'))
  ∨ (main_run frames argv dir
     = RecursionError (st_printed (parse_lines graph_lines))
     ∧ main_run frames argv' dir'
       = RecursionError (st_printed (parse_lines graph_lines'))).
Proof.
  intros Hargv Hargv' He Hg Ht He' Hg' Ht' Hrec Hentry Htargets.
  destruct argv as [|a0 [|a1 [|a2 argv]]]; try done.
  destruct argv' as [|b0 [|b1 [|b2 argv']]]; try done.
  unfold main_run, main. rewrite He, Hg, Ht, He', Hg', Ht'. cbv zeta.
  rewrite !compute_instrumentation_set_run_spec.
  change (st_call_graph (parse_lines graph_lines'))
    with (parse_call_graph_file graph_lines').1.
  change (st_call_graph (parse_lines graph_lines))
    with (parse_call_graph_file graph_lines).1.
  rewrite !parse_call_graph_file_build, <-Hrec, <-Hentry.
  set (P := λ t, is_Some (get_call_path_fuel frames
                            (build_from_records (edge_records graph_lines)).1
                            (read_entry_func entry_lines) t)).
  assert (Hsame : Forall P (read_target_func_file target_lines)
                  ↔ Forall P (read_target_func_file target_lines')).
  { rewrite !Forall_forall.
    split; intros Hall t Hin; apply Hall; by apply Htargets. }
  destruct (decide (Forall P (read_target_func_file target_lines))) as [Hall|Hnot].
  - left. by rewrite decide_True by by apply Hsame.
  - right. by rewrite decide_False by (by intros ?%Hsame).
Qed.
End pipeline_facts.

(** X24: a caller that never calls [t] has no influence on the preceding
    dependencies of [t]. *)
Theorem get_preceding_dependent_funcs_other_caller (cs : call_sites_t)
    (caller : string) (infos : list (string * Z)) (t : string) :
  cs !! caller = Some infos →
  (∀ line, (t, line) ∉ infos) →
  get_preceding_dependent_funcs (delete caller cs) t
  = get_preceding_dependent_funcs cs t.
Proof.
  intros Hlk Hnot. apply set_eq. intros f.
  rewrite !elem_of_get_preceding_dependent_funcs. split.
  - intros (c & i & [_ Hc]%lookup_delete_Some & Hp). eauto.
  - intros (c & i & Hc & Hp). exists c, i. split; [|done].
    apply lookup_delete_Some. split; [|done]. intros <-.
    rewrite Hlk in Hc. injection Hc as <-.
    destruct Hp as (_ & l2 & _ & _ & Ht & _). by apply (Hnot l2).
Qed.

(** ** The command line on examples *)

Example main_example :
  @main ascii_builtins ["prog"; "tmp"] example_dir
  = Written
      (<[output_file := [String.append "A" newline; String.append "B" newline;
                         String.append "D" newline]]> example_dir)
      ["Skipping malformed line: A,C:x"].
Proof. vm_compute. reflexivity. Qed.

Example main_usage_example : @main ascii_builtins ["prog"] example_dir = ExitUsage.
Proof. reflexivity. Qed.


(** With two frames left the search along the chain of three callers
    raises and nothing is written; with four the output is written. *)
Example main_run_recursion_limit :
  @main_run ascii_builtins 2 ["prog"; "tmp"] example_dir_chain
  = RecursionError []
  ∧ @main_run ascii_builtins 4 ["prog"; "tmp"] example_dir_chain
    = Ended (@main ascii_builtins ["prog"; "tmp"] example_dir_chain).
Proof. vm_compute. split; reflexivity. Qed.

Lemma main_no_targets_witness :
  @main ascii_builtins ["prog"; "tmp"] example_dir_blank
  = Written (<[output_file := []]> example_dir_blank)
            ["Skipping malformed line: A,C:x"].
Proof.
  apply (@main_no_targets ascii_builtins ["prog"; "tmp"] example_dir_blank
           ["A"] ["A,B:1"; "foo-bar"; "A,C:2"; "A,C:x"; "B,D:1"] [""; "  "]);
    [reflexivity..|].
  intros line Hin.
  apply elem_of_cons in Hin as [->|Hin]; [reflexivity|].
  apply list_elem_of_singleton in Hin as ->. reflexivity.
Defined.

Lemma main_same_output_witness :
  ∃ content,
    @main ascii_builtins ["prog"; "tmp"] example_dir
    = Written (<[output_file := content]> example_dir)
              ["Skipping malformed line: A,C:x"]
    ∧ @main ascii_builtins ["prog"; "other"] example_dir_clean
      = Written (<[output_file := content]> example_dir_clean) [].
Proof.
  apply (@main_same_output ascii_builtins ["prog"; "tmp"] ["prog"; "other"]
           example_dir example_dir_clean
           ["A"] ["A,B:1"; "foo-bar"; "A,C:2"; "A,C:x"; "B,D:1"] ["D"; ""; " D "]
           ["A"; "ignored"] ["A,B:1"; "A,C:2"; "B,D:1"] ["D"]);
    [reflexivity..|].
  intros t. change (t ∈ ["D"; "D"] ↔ t ∈ ["D"]).
  rewrite !elem_of_cons, elem_of_nil. tauto.
Defined.

Lemma get_preceding_dependent_funcs_other_caller_witness :
  get_preceding_dependent_funcs (delete "X" sites_extra) "D"
  = get_preceding_dependent_funcs sites_extra "D".
Proof.
  apply (get_preceding_dependent_funcs_other_caller
           sites_extra "X" [("B", 1%Z)] "D"); [reflexivity|].
  intros line Hin. apply list_elem_of_singleton in Hin. discriminate.
Defined.

(** ** The contribution of one target, with block information *)

(** X25: what a target contributes is its path together with the block
    expansion of the closure of its preceding dependencies; the closure
    itself is already part of the expansion.  The callees that the
    expansion adds are followed along block calls only, not along the call
    graph again. *)
Theorem combined_exact (cg : call_graph_t) (cs : call_sites_t)
    (bb : bb_calls_t) (entry t f : string) :
  f ∈ combined cg cs bb entry t
  ↔ f ∈ get_call_path cg entry t
    ∨ reachable_from (flat_calls bb)
        (elements (get_recursive_dependencies cg
                     (elements (get_preceding_dependent_funcs cs t)))) f.
Proof.
  unfold combined. rewrite expand_by_internal_calls_closure.
  rewrite !elem_of_union, elem_of_list_to_set.
  rewrite <-(elem_of_get_recursive_dependencies (flat_calls bb)).
  split; [intros [[|]|]|intros [|]]; auto.
  right. apply elem_of_get_recursive_dependencies, reach_seed.
  by apply elem_of_elements.
Qed.
